(** * AIR incident retrieval: the hybrid search engine and the analysis orchestrator

    Shallow embedding of [search_engine.py] (class [HybridSearchEngine]) and
    [llm_service.py] (class [IncidentAnalyzer]), with the properties of the
    retrieval and ranking step.

    Conventions of the embedding.
    - A Python [str] is a [string]; a character is a code point below 256.
    - A similarity score is a finite Python [float].  The program only stores,
      copies and compares scores, so a score is modelled by the rational
      number it denotes ([Q]); scores are never added or multiplied.
    - A Python [int] is a [Z].
    - The three collaborators held by the engine (embedding model, Qdrant
      client, PostgreSQL connection) are fields of the engine record; every
      call the engine makes to one of them is recorded in a trace, in
      program order.  The embedding model is a function of the text; the
      PostgreSQL connection is open and the server answers from a table.
    - A raised exception ends the computation with [Raise e]; the calls made
      before it stay in the trace. *)

From Stdlib Require Import ZArith QArith Ascii.
From Stdlib Require String.
From stdpp Require Import base option list sorting gmap strings.

Local Open Scope Z_scope.

(** ** Python values used by the program *)

Module Py.

(** An exception: its class name and [str(e)]. *)
Record exn := Exn { exn_class : string; exn_str : string }.

Inductive result (A : Type) : Type :=
| Ok (a : A)
| Raise (e : exn).
Arguments Ok {A} a.
Arguments Raise {A} e.

Definition dquote : string := String (ascii_of_nat 34) EmptyString.

(** [lst[0]] on a list that may be empty. *)
Definition IndexError : exn := Exn "IndexError" "list index out of range".
(** [x in None], [None[0]]. *)
Definition TypeError (msg : string) : exn := Exn "TypeError" msg.
(** [obj.name] on an object without that attribute. *)
Definition AttributeError (class name : string) : exn :=
  Exn "AttributeError"
      ("'" +:+ class +:+ "' object has no attribute '" +:+ name +:+ "'").
Definition is_AttributeError (e : exn) : bool :=
  String.eqb (exn_class e) "AttributeError".
(** What the PostgreSQL server answers to [WHERE id IN ()]. *)
Definition SqlSyntaxError : exn :=
  Exn "psycopg2.errors.SyntaxError"
      ("syntax error at or near " +:+ dquote +:+ ")" +:+ dquote).

(** Truth value of an optional string: [None] and [''] are false. *)
Definition truthy (s : option string) : bool :=
  match s with
  | Some s => negb (String.eqb s "")
  | None => false
  end.

(** [s or ''] *)
Definition or_empty (s : option string) : string :=
  if truthy s then default "" s else "".

(** [l[:n]]: the first [n] elements, and for a negative [n] all but the
    last [-n]. *)
Definition slice_to {A} (l : list A) (n : Z) : list A :=
  if 0 <=? n then take (Z.to_nat n) l
  else take (Z.to_nat (Z.of_nat (length l) + n)) l.

(** [l[0]] *)
Definition head_or_raise {A} (l : list A) : result A :=
  match l with
  | x :: _ => Ok x
  | [] => Raise IndexError
  end.

End Py.
Export Py.

(** ** Data model *)

(** A point returned by the vector index: [hit.payload] and [hit.score]. *)
Record ScoredPoint := {
  payload_incident_id : string;
  payload_tech_stack : string;
  score : Q
}.

(** A row of table [incidents] as created by [SimpleDatabase.setup]:
    [id TEXT PRIMARY KEY], every other column nullable. *)
Record Row := {
  row_id : string;
  row_title : option string;
  row_description : option string;
  row_tech_stack : option string;
  row_error_type : option string;
  row_root_cause : option string;
  row_solution : option (list (option string));
  row_service : option string
}.

(** The dictionary built for each fetched row. *)
Record Incident := {
  inc_id : string;
  inc_title : option string;
  inc_description : option string;
  inc_tech_stack : option string;
  inc_error_type : option string;
  inc_root_cause : option string;
  inc_solution : option (list (option string));
  inc_service : option string;
  similarity_score : Q
}.

(** The dictionary returned by [search_similar]. *)
Record SearchResult := {
  same_stack : list Incident;
  cross_stack : list Incident;
  all_results : list Incident
}.

(** ** The collaborators and the trace of calls *)

(** The two methods of the Qdrant client that answer a nearest-neighbour
    query: [query_points] on a recent client, [search] on an older one. *)
Inductive IndexApi := QueryPoints | SearchApi.

Inductive Call :=
| EmbedCall (text : string)
| IndexCall (api : IndexApi) (query_vector : list Q) (limit : Z)
| StoreCall (ids : list string).

Definition is_embed (c : Call) : bool :=
  match c with EmbedCall _ => true | _ => false end.
Definition is_index (c : Call) : bool :=
  match c with IndexCall _ _ _ => true | _ => false end.
Definition is_store (c : Call) : bool :=
  match c with StoreCall _ => true | _ => false end.

(** How many calls of a trace went to one collaborator. *)
Definition calls_to (which : Call → bool) (tr : list Call) : nat :=
  length (filter (λ c, which c = true) tr).

(** A Qdrant client on collection [incidents].  A method the client does not
    have is [None]; a method takes the query vector and the limit and returns
    the points ([.points] of the response of [query_points], the response
    itself for [search]) or raises. *)
Record QdrantClient := {
  client_query_points : option (list Q → Z → result (list ScoredPoint));
  client_search : option (list Q → Z → result (list ScoredPoint))
}.

(** [self.model], [self.qdrant] and [self.pg_conn].  The table is the list of
    its rows in the order in which the server scans them. *)
Record HybridSearchEngine := {
  model_encode : string → list Q;
  qdrant : QdrantClient;
  pg_incidents : list Row
}.

(** A computation that may raise and that records its calls. *)
Definition M (A : Type) : Type := list Call → result A * list Call.

Definition ret {A} (a : A) : M A := λ tr, (Ok a, tr).
Definition throw {A} (e : exn) : M A := λ tr, (Raise e, tr).
Definition bind {A B} (m : M A) (k : A → M B) : M B :=
  λ tr, match m tr with
        | (Ok a, tr') => k a tr'
        | (Raise e, tr') => (Raise e, tr')
        end.
Definition lift {A} (r : result A) : M A := λ tr, (r, tr).
(** [try: m  except E: handler], where [catches] tells the exceptions of
    class [E]. *)
Definition try_except {A} (m : M A) (catches : exn → bool) (handler : M A)
  : M A :=
  λ tr, match m tr with
        | (Raise e, tr') => if catches e then handler tr' else (Raise e, tr')
        | (Ok a, tr') => (Ok a, tr')
        end.
(** Looking a method up on the client. *)
Definition method {F} (attr : option F) (name : string) : M F :=
  match attr with
  | Some f => ret f
  | None => throw (AttributeError "QdrantClient" name)
  end.
Definition record (c : Call) : M unit := λ tr, (Ok tt, tr ++ [c]).
Definition run {A} (m : M A) : result A * list Call := m [].

Declare Scope py_scope.
Delimit Scope py_scope with py.
Notation "'let*' x ':=' m 'in' k" := (bind m (λ x, k))
  (at level 10, x name, m at level 100, k at level 200) : py_scope.
Notation "'do' m 'in' k" := (bind m (λ _, k))
  (at level 10, m at level 100, k at level 200) : py_scope.
Local Open Scope py_scope.

(** ** [HybridSearchEngine.search_similar] *)

Module Search.

(** Step 1, [self.model.encode(query).tolist()]. *)
Definition encode (self : HybridSearchEngine) (query : string) : M (list Q) :=
  do record (EmbedCall query) in
  ret (model_encode self query).

(** Step 2, the nearest neighbours of the query vector: [query_points], and
    [search] if that raises an [AttributeError]. *)
Definition vector_search (self : HybridSearchEngine) (v : list Q) (limit : Z)
  : M (list ScoredPoint) :=
  try_except
    (let* query_points := method (client_query_points (qdrant self))
                            "query_points" in
     do record (IndexCall QueryPoints v limit) in
     lift (query_points v limit))
    is_AttributeError
    (let* search := method (client_search (qdrant self)) "search" in
     do record (IndexCall SearchApi v limit) in
     lift (search v limit)).

(** Step 3. *)
Definition incident_ids (results_list : list ScoredPoint) : list string :=
  payload_incident_id <$> results_list.

(** The dict comprehension inserts the hits from left to right. *)
Definition similarity_scores (results_list : list ScoredPoint) : gmap string Q :=
  foldl (λ d hit, <[payload_incident_id hit := score hit]> d) ∅ results_list.

(** Step 4.  The statement text has one [%s] per id. *)
Definition placeholders (ids : list string) : string :=
  String.concat "," (replicate (length ids) "%s").

(** The server rejects an empty [IN ()] list; otherwise each row whose key
    is among the ids is returned once, in scan order. *)
Definition pg_select_in (table : list Row) (ids : list string)
  : result (list Row) :=
  if decide (placeholders ids = "") then Raise SqlSyntaxError
  else Ok (filter (λ r, row_id r ∈ ids) table).

Definition fetch_rows (self : HybridSearchEngine) (ids : list string)
  : M (list Row) :=
  do record (StoreCall ids) in
  lift (pg_select_in (pg_incidents self) ids).

(** Step 5. *)
Definition build_incident (scores : gmap string Q) (row : Row) : Incident :=
  {| inc_id := row_id row;
     inc_title := row_title row;
     inc_description := row_description row;
     inc_tech_stack := row_tech_stack row;
     inc_error_type := row_error_type row;
     inc_root_cause := row_root_cause row;
     inc_solution := row_solution row;
     inc_service := row_service row;
     similarity_score := default 0%Q (scores !! row_id row) |}.

(** Step 6.  [current_tech_stack and inc['tech_stack'] == current_tech_stack] *)
Definition is_same_stack (current_tech_stack : option string) (inc : Incident)
  : bool :=
  truthy current_tech_stack
  && bool_decide (inc_tech_stack inc = current_tech_stack).

Definition split_step (current_tech_stack : option string)
    (acc : list Incident * list Incident) (inc : Incident)
  : list Incident * list Incident :=
  if is_same_stack current_tech_stack inc
  then (acc.1 ++ [inc], acc.2)
  else (acc.1, acc.2 ++ [inc]).

Definition split_stacks (current_tech_stack : option string)
    (incidents : list Incident) : list Incident * list Incident :=
  foldl (split_step current_tech_stack) ([], []) incidents.

(** Step 7.  [list.sort(key=..., reverse=True)] is a stable sort: the keys
    come out in descending order and elements with equal keys keep their
    order.  [insert_desc x l] puts [x] in front of the first element whose
    key is not above the key of [x]. *)
Fixpoint insert_desc (x : Incident) (l : list Incident) : list Incident :=
  match l with
  | [] => [x]
  | y :: l' =>
      if Qle_bool (similarity_score y) (similarity_score x)
      then x :: y :: l'
      else y :: insert_desc x l'
  end.

Definition sort_desc (l : list Incident) : list Incident :=
  foldr insert_desc [] l.

(** What step 2 returns, and the calls it makes, for a vector and a limit. *)
Definition index_answer (self : HybridSearchEngine) (v : list Q) (limit : Z)
  : result (list ScoredPoint) :=
  (run (vector_search self v limit)).1.
Definition index_calls (self : HybridSearchEngine) (v : list Q) (limit : Z)
  : list Call :=
  (run (vector_search self v limit)).2.

(** The list [incidents] after step 5. *)
Definition build_incidents (results_list : list ScoredPoint) (rows : list Row)
  : list Incident :=
  build_incident (similarity_scores results_list) <$> rows.

(** Steps 3 and 5 to 7 and the final slices, on the hits and the rows. *)
Definition assemble (current_tech_stack : option string) (limit : Z)
    (results_list : list ScoredPoint) (rows : list Row) : SearchResult :=
  let incidents := build_incidents results_list rows in
  let '(same, cross) := split_stacks current_tech_stack incidents in
  {| same_stack := slice_to (sort_desc same) (limit / 2);
     cross_stack := slice_to (sort_desc cross) (limit / 2);
     all_results := slice_to incidents limit |}.

Definition search_similar (self : HybridSearchEngine) (query : string)
    (current_tech_stack : option string) (limit : Z) : M SearchResult :=
  let* query_vector := encode self query in
  let* results_list := vector_search self query_vector (limit * 3) in
  let* rows := fetch_rows self (incident_ids results_list) in
  ret (assemble current_tech_stack limit results_list rows).

End Search.

(** ** Python string methods used on the model's reply *)

Module PyStr.

(** [sub in s] *)
Fixpoint contains (sub s : string) : bool :=
  String.prefix sub s
  || match s with
     | EmptyString => false
     | String _ s' => contains sub s'
     end.

(** [s.split(sep)] for a non-empty [sep]: the text is cut at the
    occurrences of [sep] found from left to right, an occurrence starting
    only after the previous one has ended.  [skip] counts the characters of
    the current occurrence still to be passed over, [cur] is the piece
    being read. *)
Fixpoint split_go (sep s : string) (skip : nat) (cur : string) : list string :=
  match s with
  | EmptyString => [cur]
  | String c s' =>
      match skip with
      | S k => split_go sep s' k cur
      | O =>
          if String.prefix sep s
          then cur :: split_go sep s' (String.length sep - 1) ""
          else split_go sep s' 0 (cur +:+ String c "")
      end
  end.

Definition split (sep s : string) : list string := split_go sep s 0 "".

(** [s.replace(old, new)] for a non-empty [old]. *)
Fixpoint replace_go (old new s : string) (skip : nat) : string :=
  match s with
  | EmptyString => ""
  | String c s' =>
      match skip with
      | S k => replace_go old new s' k
      | O =>
          if String.prefix old s
          then new +:+ replace_go old new s' (String.length old - 1)
          else String c (replace_go old new s' 0)
      end
  end.

Definition replace (old new s : string) : string := replace_go old new s 0.

(** [c.isspace()] for a code point below 256. *)
Definition is_space (c : ascii) : bool :=
  let n := nat_of_ascii c in
  ((9 <=? n) && (n <=? 13) || (28 <=? n) && (n <=? 32)
   || (n =? 133) || (n =? 160))%nat.

Fixpoint lstrip (s : string) : string :=
  match s with
  | EmptyString => ""
  | String c s' => if is_space c then lstrip s' else s
  end.

Fixpoint rstrip (s : string) : string :=
  match s with
  | EmptyString => ""
  | String c s' =>
      match rstrip s' with
      | EmptyString => if is_space c then "" else String c ""
      | r => String c r
      end
  end.

(** [s.strip()] *)
Definition strip (s : string) : string := rstrip (lstrip s).

(** [s[:n]] for a non-negative [n]. *)
Fixpoint slice_to (s : string) (n : nat) : string :=
  match n, s with
  | S n', String c s' => String c (slice_to s' n')
  | _, _ => ""
  end.

(** [f"{x}"] for a text that may be [None]. *)
Definition fmt (x : option string) : string := default "None" x.

End PyStr.

(** ** [IncidentAnalyzer] *)

Module Analyzer.

(** What the prompt shows of the top incident of a partition: the stack
    named in the heading, then [id], [title], [root_cause] and
    [solution[0]]. *)
Record Context := {
  ctx_stack : option string;
  ctx_id : string;
  ctx_title : option string;
  ctx_root_cause : option string;
  ctx_first_step : option string
}.

(** The prompt is a fixed template; these are the values put in its holes.
    An absent context is the empty string of the source. *)
Record Prompt := {
  prompt_tech_stack : string;
  prompt_description : string;
  prompt_error : string;
  prompt_same_stack_context : option Context;
  prompt_cross_stack_context : option Context
}.

(** The reply of the chat endpoint: [message.content] of each choice. *)
Record Completion := { choices : list (option string) }.

Record IncidentAnalyzer := {
  search_engine : HybridSearchEngine;
  groq_create : Prompt → result Completion
}.

(** The dictionary returned by [analyze_incident]. *)
Record Analysis := {
  an_same_stack : list Incident;
  an_cross_stack : list Incident;
  an_root_cause : string;
  an_solution : string;
  an_reasoning : string;
  most_similar : option Incident
}.

(** [inc['solution'][0]] *)
Definition first_step (inc : Incident) : result (option string) :=
  match inc_solution inc with
  | None => Raise (TypeError "'NoneType' object is not subscriptable")
  | Some steps => head_or_raise steps
  end.

Definition context_of (stack : option string) (inc : Incident)
  : result Context :=
  match first_step inc with
  | Raise e => Raise e
  | Ok step =>
      Ok {| ctx_stack := stack;
            ctx_id := inc_id inc;
            ctx_title := inc_title inc;
            ctx_root_cause := inc_root_cause inc;
            ctx_first_step := step |}
  end.

(** The same-stack heading names the caller's stack. *)
Definition same_stack_context (tech_stack : string) (same : list Incident)
  : result (option Context) :=
  match same with
  | [] => Ok None
  | inc :: _ =>
      match context_of (Some tech_stack) inc with
      | Raise e => Raise e
      | Ok c => Ok (Some c)
      end
  end.

(** The cross-stack heading names the incident's own stack. *)
Definition cross_stack_context (cross : list Incident)
  : result (option Context) :=
  match cross with
  | [] => Ok None
  | inc :: _ =>
      match context_of (inc_tech_stack inc) inc with
      | Raise e => Raise e
      | Ok c => Ok (Some c)
      end
  end.

Definition build_prompt (description tech_stack : string)
    (error_message : option string) (same cross : list Incident)
  : result Prompt :=
  match same_stack_context tech_stack same with
  | Raise e => Raise e
  | Ok sc =>
      match cross_stack_context cross with
      | Raise e => Raise e
      | Ok cc =>
          Ok {| prompt_tech_stack := tech_stack;
                prompt_description := description;
                prompt_error :=
                  if truthy error_message then default "" error_message
                  else "Not provided";
                prompt_same_stack_context := sc;
                prompt_cross_stack_context := cc |}
      end
  end.

(** The parse of the reply, from the three defaults. *)
Definition parse_response (response_text : string)
  : string * string * string :=
  let root_cause := "Unable to determine" in
  let solution := "Manual investigation required" in
  let reasoning := "Insufficient similar incidents found" in
  if PyStr.contains "ROOT CAUSE:" response_text then
    let parts := PyStr.split "SOLUTION:" response_text in
    let root_cause :=
      PyStr.strip (PyStr.replace "ROOT CAUSE:" "" (default "" (head parts))) in
    match parts with
    | _ :: part1 :: _ =>
        let solution_parts := PyStr.split "REASONING:" part1 in
        let solution := PyStr.strip (default "" (head solution_parts)) in
        match solution_parts with
        | _ :: part2 :: _ => (root_cause, solution, PyStr.strip part2)
        | _ => (root_cause, solution, reasoning)
        end
    | _ => (root_cause, solution, reasoning)
    end
  else (root_cause, solution, reasoning).

(** The body of the [try]. *)
Definition request_and_parse (self : IncidentAnalyzer) (prompt : Prompt)
  : result (string * string * string) :=
  match groq_create self prompt with
  | Raise e => Raise e
  | Ok completion =>
      match head_or_raise (choices completion) with
      | Raise e => Raise e
      | Ok None =>
          Raise (TypeError "argument of type 'NoneType' is not iterable")
      | Ok (Some response_text) => Ok (parse_response response_text)
      end
  end.

(** The triple of the [except] clause. *)
Definition fallback (e : exn) : string * string * string :=
  ("Error: " +:+ exn_str e, "LLM call failed", "Check API key").

Definition _generate_analysis (self : IncidentAnalyzer)
    (description tech_stack : string) (error_message : option string)
    (same cross : list Incident) : result (string * string * string) :=
  match build_prompt description tech_stack error_message same cross with
  | Raise e => Raise e
  | Ok prompt =>
      match request_and_parse self prompt with
      | Ok triple => Ok triple
      | Raise e => Ok (fallback e)
      end
  end.

(** [same[0] if same else cross[0] if cross else None] *)
Definition pick_most_similar (same cross : list Incident) : option Incident :=
  match same with
  | inc :: _ => Some inc
  | [] => match cross with
          | inc :: _ => Some inc
          | [] => None
          end
  end.

Definition analyze_incident (self : IncidentAnalyzer)
    (description tech_stack : string) (error_message : option string)
  : M Analysis :=
  let search_query := description +:+ " " +:+ or_empty error_message in
  let* results :=
    Search.search_similar (search_engine self) search_query
      (Some tech_stack) 10 in
  let* triple :=
    lift (_generate_analysis self description tech_stack error_message
            (same_stack results) (cross_stack results)) in
  ret {| an_same_stack := slice_to (same_stack results) 5;
         an_cross_stack := slice_to (cross_stack results) 5;
         an_root_cause := triple.1.1;
         an_solution := triple.1.2;
         an_reasoning := triple.2;
         most_similar :=
           pick_most_similar (same_stack results) (cross_stack results) |}.

(** One item of the list built by [_format_incidents].  The fields are read
    from left to right: [root_cause[:120]] before [solution[0]]. *)
Definition format_incident (inc : Incident) : result string :=
  match inc_root_cause inc with
  | None => Raise (TypeError "'NoneType' object is not subscriptable")
  | Some root_cause =>
      match first_step inc with
      | Raise e => Raise e
      | Ok step =>
          Ok ("**" +:+ inc_id inc +:+ "** [" +:+ PyStr.fmt (inc_tech_stack inc)
              +:+ "]: " +:+ PyStr.fmt (inc_title inc) +:+ "
" +:+ "Root Cause: " +:+ PyStr.slice_to root_cause 120 +:+ "
" +:+ "Solution: " +:+ PyStr.fmt step)
      end
  end.

(** The list comprehension: the items in order, up to the first that
    raises. *)
Fixpoint format_each (incidents : list Incident) : result (list string) :=
  match incidents with
  | [] => Ok []
  | inc :: rest =>
      match format_incident inc with
      | Raise e => Raise e
      | Ok item =>
          match format_each rest with
          | Raise e => Raise e
          | Ok items => Ok (item :: items)
          end
      end
  end.

Definition blank_line : string := "

".

Definition _format_incidents (incidents : list Incident) : result string :=
  match format_each incidents with
  | Raise e => Raise e
  | Ok items => Ok (String.concat blank_line items)
  end.

End Analyzer.


(** ** Concrete engines used in the examples *)

Module Fixtures.

Definition row (id : string) (stack : string) : Row :=
  {| row_id := id;
     row_title := Some ("title of " +:+ id);
     row_description := Some "request times out";
     row_tech_stack := Some stack;
     row_error_type := Some "timeout";
     row_root_cause := Some "connection pool exhausted";
     row_solution := Some [Some "raise the pool size"; Some "add a timeout"];
     row_service := Some "payments" |}.

Definition hit (id : string) (stack : string) (s : Q) : ScoredPoint :=
  {| payload_incident_id := id; payload_tech_stack := stack; score := s |}.

(** A recent client that answers every query with [hits]. *)
Definition client (hits : list ScoredPoint) : QdrantClient :=
  {| client_query_points := Some (λ _ _, Ok hits);
     client_search := None |}.

(** An older client. *)
Definition old_client (hits : list ScoredPoint) : QdrantClient :=
  {| client_query_points := None;
     client_search := Some (λ _ _, Ok hits) |}.

Definition engine (hits : list ScoredPoint) (table : list Row)
  : HybridSearchEngine :=
  {| model_encode := λ _, [1#2; 1#4];
     qdrant := client hits;
     pg_incidents := table |}.

Definition old_engine (hits : list ScoredPoint) (table : list Row)
  : HybridSearchEngine :=
  {| model_encode := λ _, [1#2; 1#4];
     qdrant := old_client hits;
     pg_incidents := table |}.

(** Two incidents; the index ranks [INC-2] first, the table holds [INC-1]
    first. *)
Definition two_hits : list ScoredPoint :=
  [hit "INC-2" "python" (9#10); hit "INC-1" "java" (1#10)].
Definition two_rows : list Row := [row "INC-1" "java"; row "INC-2" "python"].

(** The index returns the same id twice, with two scores. *)
Definition dup_hits : list ScoredPoint :=
  [hit "INC-1" "java" (9#10); hit "INC-1" "java" (1#10);
   hit "INC-2" "python" (1#2)].

(** [INC-9] is in the index and not in the table. *)
Definition drift_hits : list ScoredPoint :=
  [hit "INC-9" "java" (9#10); hit "INC-1" "java" (1#2)].

(** An analyzer whose model answers every prompt with [outcome]. *)
Definition analyzer (hits : list ScoredPoint) (table : list Row)
    (outcome : result Analyzer.Completion) : Analyzer.IncidentAnalyzer :=
  {| Analyzer.search_engine := engine hits table;
     Analyzer.groq_create := λ _, outcome |}.

Definition plain_reply : result Analyzer.Completion :=
  Ok {| Analyzer.choices := [Some "I cannot help with that."] |}.

Definition rate_limited : result Analyzer.Completion :=
  Raise (Exn "groq.RateLimitError" "Error code: 429").

End Fixtures.

(** ** [SimpleDatabase]: creating and filling the two stores *)

Module Setup.

(** A record of [data/incidents.json], with the eight keys the importer
    reads. *)
Record IncidentJson := {
  j_id : string;
  j_title : string;
  j_description : string;
  j_tech_stack : string;
  j_error_type : string;
  j_root_cause : string;
  j_solution : list string;
  j_service : string
}.

(** A point of the collection: its vector and its payload.  The collection
    maps point ids to points. *)
Record PointStruct := {
  point_vector : list Q;
  point_incident_id : string;
  point_tech_stack : string
}.

(** The committed content of table [incidents] and the collection
    [incidents]; [None] when the table or the collection does not exist. *)
Record Stores := {
  pg_table : option (list Row);
  qdrant_points : option (gmap nat PointStruct)
}.

Definition UniqueViolation : exn :=
  Exn "psycopg2.errors.UniqueViolation"
      ("duplicate key value violates unique constraint "
       +:+ dquote +:+ "incidents_pkey" +:+ dquote).
Definition UndefinedTable : exn :=
  Exn "psycopg2.errors.UndefinedTable"
      ("relation " +:+ dquote +:+ "incidents" +:+ dquote
       +:+ " does not exist").
Definition DuplicateTable : exn :=
  Exn "psycopg2.errors.DuplicateTable"
      ("relation " +:+ dquote +:+ "incidents" +:+ dquote
       +:+ " already exists").
Definition CollectionNotFound : exn :=
  Exn "ValueError" "Collection incidents not found".
Definition CollectionExists : exn :=
  Exn "ValueError" "Collection incidents already exists".

(** [DROP TABLE IF EXISTS incidents CASCADE] *)
Definition drop_table_if_exists (t : option (list Row)) : option (list Row) :=
  None.

(** [CREATE TABLE incidents (...)] *)
Definition create_table (t : option (list Row)) : result (option (list Row)) :=
  match t with
  | None => Ok (Some [])
  | Some _ => Raise DuplicateTable
  end.

Definition delete_collection (c : option (gmap nat PointStruct))
  : result (option (gmap nat PointStruct)) :=
  match c with
  | Some _ => Ok None
  | None => Raise CollectionNotFound
  end.

Definition create_collection (c : option (gmap nat PointStruct))
  : result (option (gmap nat PointStruct)) :=
  match c with
  | None => Ok (Some ∅)
  | Some _ => Raise CollectionExists
  end.

(** [setup]: the table is dropped and created again and the transaction is
    committed; then the collection is deleted, any error of the deletion
    being passed over, and created again. *)
Definition setup (s : Stores) : result unit * Stores :=
  match create_table (drop_table_if_exists (pg_table s)) with
  | Raise e => (Raise e, s)
  | Ok table =>
      let deleted :=
        match delete_collection (qdrant_points s) with
        | Ok c => c
        | Raise _ => qdrant_points s
        end in
      match create_collection deleted with
      | Raise e => (Raise e, {| pg_table := table; qdrant_points := deleted |})
      | Ok c => (Ok tt, {| pg_table := table; qdrant_points := c |})
      end
  end.

(** The text that is embedded for an incident. *)
Definition embedding_text (inc : IncidentJson) : string :=
  j_title inc +:+ " " +:+ j_description inc +:+ " " +:+ j_root_cause inc.

(** The values of one [INSERT INTO incidents VALUES (...)]. *)
Definition row_of (inc : IncidentJson) : Row :=
  {| row_id := j_id inc;
     row_title := Some (j_title inc);
     row_description := Some (j_description inc);
     row_tech_stack := Some (j_tech_stack inc);
     row_error_type := Some (j_error_type inc);
     row_root_cause := Some (j_root_cause inc);
     row_solution := Some (Some <$> j_solution inc);
     row_service := Some (j_service inc) |}.

(** One [INSERT]: the table must exist and the key must be new. *)
Definition insert_row (t : option (list Row)) (r : Row)
  : result (option (list Row)) :=
  match t with
  | None => Raise UndefinedTable
  | Some rows =>
      if decide (row_id r ∈ row_id <$> rows) then Raise UniqueViolation
      else Ok (Some (rows ++ [r]))
  end.

(** The loop of inserts, inside one transaction. *)
Fixpoint insert_all (t : option (list Row)) (incidents : list IncidentJson)
  : result (option (list Row)) :=
  match incidents with
  | [] => Ok t
  | inc :: rest =>
      match insert_row t (row_of inc) with
      | Raise e => Raise e
      | Ok t' => insert_all t' rest
      end
  end.

(** [PointStruct(id=i, vector=embeddings[i].tolist(), payload={...})] for
    [i, inc in enumerate(incidents)]. *)
Definition point_of (encode : string → list Q) (inc : IncidentJson)
  : PointStruct :=
  {| point_vector := encode (embedding_text inc);
     point_incident_id := j_id inc;
     point_tech_stack := j_tech_stack inc |}.

Definition points_of (encode : string → list Q) (incidents : list IncidentJson)
  : list (nat * PointStruct) :=
  imap (λ i inc, (i, point_of encode inc)) incidents.

(** [upsert]: each point is stored under its id, replacing the point that
    had this id. *)
Definition upsert (c : option (gmap nat PointStruct))
    (points : list (nat * PointStruct))
  : result (option (gmap nat PointStruct)) :=
  match c with
  | None => Raise CollectionNotFound
  | Some m => Ok (Some (foldl (λ m p, <[p.1 := p.2]> m) m points))
  end.

(** [import_data] on the records of the data file.  The rows are committed
    after the last insert; an insert that raises leaves the committed table
    as it was.  The points are written after the commit. *)
Definition import_data (encode : string → list Q)
    (incidents : list IncidentJson) (s : Stores) : result unit * Stores :=
  match insert_all (pg_table s) incidents with
  | Raise e => (Raise e, s)
  | Ok table =>
      match upsert (qdrant_points s) (points_of encode incidents) with
      | Raise e =>
          (Raise e, {| pg_table := table; qdrant_points := qdrant_points s |})
      | Ok c => (Ok tt, {| pg_table := table; qdrant_points := c |})
      end
  end.

End Setup.

(** ** [main.py]: shortening a text for display *)

Module Ui.

(** [s[:n] + "..." if len(s) > n else s] *)
Definition shorten (n : nat) (s : string) : string :=
  if (n <? String.length s)%nat then PyStr.slice_to s n +:+ "..." else s.

(** The same on a field that may be [None]: [len(None)] raises. *)
Definition shorten_field (n : nat) (x : option string) : result string :=
  match x with
  | None => Raise (TypeError "object of type 'NoneType' has no len()")
  | Some s => Ok (shorten n s)
  end.

(** [title_short] and [root_short] of the incident lists. *)
Definition title_short (inc : Incident) : result string :=
  shorten_field 40 (inc_title inc).
Definition root_short (inc : Incident) : result string :=
  shorten_field 120 (inc_root_cause inc).

End Ui.

(** ** Data used in the examples of the stores *)

Module Samples.
Import Setup.

Definition sample (id stack title : string) : IncidentJson :=
  {| j_id := id;
     j_title := title;
     j_description := "requests time out under load";
     j_tech_stack := stack;
     j_error_type := "timeout";
     j_root_cause := "connection pool exhausted";
     j_solution := ["raise the pool size"; "add a timeout"];
     j_service := "payments" |}.

Definition dataset : list IncidentJson :=
  [sample "INC-1" "java" "Checkout timeout";
   sample "INC-2" "python" "Worker timeout";
   sample "INC-3" "nodejs" "Gateway timeout"].

(** A data file in which an id occurs twice. *)
Definition bad_dataset : list IncidentJson :=
  [sample "INC-1" "java" "Checkout timeout";
   sample "INC-1" "python" "Worker timeout"].

Definition nothing : Stores := {| pg_table := None; qdrant_points := None |}.

(** Two java incidents with the same score; the index names them in the
    order opposite to the table's. *)
Definition tie_hits : list ScoredPoint :=
  [Fixtures.hit "INC-2" "java" (1#2); Fixtures.hit "INC-1" "java" (1#2)].
Definition tie_rows : list Row :=
  [Fixtures.row "INC-1" "java"; Fixtures.row "INC-2" "java"].

(** An engine whose index cannot be reached. *)
Definition unreachable : exn :=
  Exn "ResponseHandlingException" "connection refused".
Definition down_engine : HybridSearchEngine :=
  {| model_encode := λ _, [1#2; 1#4];
     qdrant := {| client_query_points := Some (λ _ _, Raise unreachable);
                  client_search := Some (λ _ _, Ok Fixtures.two_hits) |};
     pg_incidents := Fixtures.two_rows |}.

(** The stores with no table and an empty collection, and the empty
    stores. *)
Definition no_collection : Stores :=
  {| pg_table := Some []; qdrant_points := None |}.
Definition empty_stores : Stores :=
  {| pg_table := Some []; qdrant_points := Some ∅ |}.

(** Candidates taken from the points of [dataset]. *)
Definition dataset_hits : list ScoredPoint :=
  [Fixtures.hit "INC-2" "python" (9#10); Fixtures.hit "INC-1" "java" (1#10)].

(** An incident whose solution list is empty. *)
Definition no_steps : Incident :=
  {| inc_id := "INC-7";
     inc_title := Some "Cache stampede";
     inc_description := Some "cache misses pile up";
     inc_tech_stack := Some "java";
     inc_error_type := Some "latency";
     inc_root_cause := Some "no request coalescing";
     inc_solution := Some [];
     inc_service := Some "catalog";
     similarity_score := 3#4 |}.

(** The same candidates in two orders. *)
Definition two_hits_reversed : list ScoredPoint :=
  [Fixtures.hit "INC-1" "java" (1#10); Fixtures.hit "INC-2" "python" (9#10)].

Definition embed (text : string) : list Q :=
  [Z.of_nat (String.length text) # 1].

(** A reply in the requested format, with a sentence before the first
    marker. *)
Definition formatted_reply : string :=
  "Here is my analysis.
ROOT CAUSE:
 The connection pool is exhausted.

SOLUTION:
1. Restart the service
2. Raise the pool size

REASONING:
 Same cause as INC-1.
".

End Samples.

(** ** Notions used to state the properties *)

(** The number of positions of [s] at which [sep] starts. *)
Fixpoint occurrences (sep s : string) : nat :=
  ((if String.prefix sep s then 1 else 0)
   + match s with
     | EmptyString => 0
     | String _ s' => occurrences sep s'
     end)%nat.

(** Every point of the collection names a row of the table, with the same
    stack. *)
Definition integral (table : list Row) (c : gmap nat Setup.PointStruct)
  : Prop :=
  ∀ i p, c !! i = Some p →
         ∃ row, row ∈ table
                ∧ row_id row = Setup.point_incident_id p
                ∧ row_tech_stack row = Some (Setup.point_tech_stack p).

(** The candidates carry payloads of points of the collection. *)
Definition answers_from (c : gmap nat Setup.PointStruct)
    (hits : list ScoredPoint) : Prop :=
  ∀ h, h ∈ hits →
       ∃ i p, c !! i = Some p
              ∧ payload_incident_id h = Setup.point_incident_id p
              ∧ payload_tech_stack h = Setup.point_tech_stack p.

(** The incidents of a list whose score equals [q]. *)
Definition with_score (q : Q) (l : list Incident) : list Incident :=
  filter (λ inc, Qeq_bool (similarity_score inc) q = true) l.

(** A list is in descending order of score when each element's score is at
    least the score of the element after it. *)
Definition descending (l : list Incident) : Prop :=
  ∀ i a b, l !! i = Some a → l !! S i = Some b →
           (similarity_score b <= similarity_score a)%Q.

Definition score_ge (a b : Incident) : Prop :=
  (similarity_score b <= similarity_score a)%Q.

(** The hits that carry id [i], in the order of the candidate sequence. *)
Definition hits_of (i : string) (hits : list ScoredPoint) : list ScoredPoint :=
  filter (λ h, payload_incident_id h = i) hits.

(** The score of the first, and of the last, candidate that carries [i]. *)
Definition first_seen_score (hits : list ScoredPoint) (i : string) : option Q :=
  score <$> head (hits_of i hits).
Definition last_seen_score (hits : list ScoredPoint) (i : string) : option Q :=
  score <$> last (hits_of i hits).

(** The candidates whose id has a row in the table. *)
Definition present_hits (table : list Row) (hits : list ScoredPoint)
  : list ScoredPoint :=
  filter (λ h, payload_incident_id h ∈ row_id <$> table) hits.

(** * Properties of the steps *)

(** The cases of step 2: which methods the client has, what they answer,
    and whether a raised exception is an [AttributeError]. *)
Ltac vector_search_cases self v limit :=
  unfold run, Search.vector_search, try_except, method, bind, record, lift, ret,
    throw;
  destruct (client_query_points (qdrant self)) as [?qp|],
    (client_search (qdrant self)) as [?se|]; simpl;
  repeat match goal with
    | |- context [match ?f v limit with _ => _ end] =>
        destruct (f v limit) as [?pts|?e]; simpl
    | |- context [if is_AttributeError ?e then _ else _] =>
        destruct (is_AttributeError e); simpl
    end.

Section Steps.
Import Search.

Lemma placeholders_empty ids : placeholders ids = "" ↔ ids = [].
Proof.
  unfold placeholders. destruct ids as [|i [|j ids]]; simpl; split;
    intros H; try done.
Qed.

Lemma pg_select_in_nil table : pg_select_in table [] = Raise SqlSyntaxError.
Proof. reflexivity. Qed.

Lemma pg_select_in_cons table i ids :
  pg_select_in table (i :: ids)
  = Ok (filter (λ r, row_id r ∈ i :: ids) table).
Proof.
  unfold pg_select_in. destruct (decide _) as [E|_]; [|done].
  by apply placeholders_empty in E.
Qed.

Lemma pg_select_in_nonempty table ids :
  ids ≠ [] →
  pg_select_in table ids = Ok (filter (λ r, row_id r ∈ ids) table).
Proof. destruct ids; [done|]. intros _. apply pg_select_in_cons. Qed.

Lemma pg_select_in_ok table ids rows :
  pg_select_in table ids = Ok rows →
  ids ≠ [] ∧ rows = filter (λ r, row_id r ∈ ids) table.
Proof.
  destruct ids as [|i ids]; [by rewrite pg_select_in_nil|].
  rewrite pg_select_in_cons. by intros [= <-].
Qed.

(** Step 2 appends its calls to the trace it is given. *)
Lemma vector_search_trace self v limit tr :
  vector_search self v limit tr
  = (index_answer self v limit, tr ++ index_calls self v limit).
Proof.
  unfold index_answer, index_calls.
  vector_search_cases self v limit; by rewrite ?app_nil_r, <-?app_assoc.
Qed.

(** The run of [search_similar], call by call. *)
Lemma run_search_similar self query cur limit :
  run (search_similar self query cur limit)
  = let v := model_encode self query in
    match index_answer self v (limit * 3) with
    | Raise e => (Raise e, EmbedCall query :: index_calls self v (limit * 3))
    | Ok hits =>
        let tr := EmbedCall query :: index_calls self v (limit * 3)
                   ++ [StoreCall (incident_ids hits)] in
        match pg_select_in (pg_incidents self) (incident_ids hits) with
        | Raise e => (Raise e, tr)
        | Ok rows => (Ok (assemble cur limit hits rows), tr)
        end
    end.
Proof.
  unfold run, search_similar, encode, fetch_rows, bind; simpl.
  rewrite vector_search_trace; simpl.
  destruct (index_answer _ _ _) as [hits|e]; [|done].
  unfold record, lift, ret; simpl.
  by destruct (pg_select_in _ _).
Qed.

(** A run that returns went through the index and the store. *)
Lemma search_similar_ok self query cur limit r tr :
  run (search_similar self query cur limit) = (Ok r, tr) →
  ∃ hits,
    index_answer self (model_encode self query) (limit * 3) = Ok hits
    ∧ hits ≠ []
    ∧ r = assemble cur limit hits
            (filter (λ row, row_id row ∈ incident_ids hits)
               (pg_incidents self)).
Proof.
  rewrite run_search_similar; simpl.
  destruct (index_answer _ _ _) as [hits|e]; [|done].
  destruct (pg_select_in _ _) as [rows|e] eqn:E; [|done].
  intros [= <- <-]. apply pg_select_in_ok in E as [Hne ->].
  exists hits. split_and!; [done| |done].
  intros ->. by apply Hne.
Qed.

(** Step 3: the dictionary keeps, for each id, the score of the last hit
    that carries it. *)
Lemma similarity_scores_snoc hits h :
  similarity_scores (hits ++ [h])
  = <[payload_incident_id h := score h]> (similarity_scores hits).
Proof. unfold similarity_scores. by rewrite foldl_app. Qed.

Lemma similarity_scores_last pre h post :
  (∀ h', h' ∈ post → payload_incident_id h' ≠ payload_incident_id h) →
  similarity_scores (pre ++ h :: post) !! payload_incident_id h
  = Some (score h).
Proof.
  induction post as [|p post IH] using rev_ind; intros Hpost.
  - by rewrite similarity_scores_snoc, lookup_insert_eq.
  - replace (pre ++ h :: post ++ [p]) with ((pre ++ h :: post) ++ [p])
      by by rewrite <-app_assoc.
    rewrite similarity_scores_snoc, lookup_insert_ne.
    + apply IH. intros h' Hh'. apply Hpost. set_solver.
    + apply Hpost. set_solver.
Qed.

Lemma similarity_scores_is_Some hits i :
  is_Some (similarity_scores hits !! i) ↔ i ∈ incident_ids hits.
Proof.
  unfold incident_ids.
  induction hits as [|h hits IH] using rev_ind.
  - unfold similarity_scores; simpl. rewrite lookup_empty.
    split; [by intros [? ?]|by intros ?%elem_of_nil].
  - rewrite similarity_scores_snoc, fmap_app, elem_of_app; simpl.
    rewrite list_elem_of_singleton.
    destruct (decide (payload_incident_id h = i)) as [->|Hne].
    + rewrite lookup_insert_eq. split; [by right|by eexists].
    + rewrite lookup_insert_ne by done. rewrite IH.
      split; [by left|by intros [?|?]].
Qed.

(** Hits whose id has no row do not change the score of an id that has
    one. *)
Lemma similarity_scores_present table hits i :
  i ∈ row_id <$> table →
  similarity_scores (present_hits table hits) !! i
  = similarity_scores hits !! i.
Proof.
  intros Hi. unfold present_hits.
  induction hits as [|h hits IH] using rev_ind; [done|].
  rewrite filter_app, similarity_scores_snoc.
  rewrite filter_cons, filter_nil.
  destruct (decide (payload_incident_id h ∈ row_id <$> table)) as [HP|HP].
  - rewrite similarity_scores_snoc.
    destruct (decide (payload_incident_id h = i)) as [->|Hne].
    + by rewrite !lookup_insert_eq.
    + by rewrite !lookup_insert_ne.
  - rewrite app_nil_r, lookup_insert_ne; [done|].
    intros Heq. apply HP. by rewrite Heq.
Qed.

(** Step 6 is a pair of filters. *)
Lemma split_stacks_filter cur incidents :
  split_stacks cur incidents
  = (filter (λ inc, is_same_stack cur inc = true) incidents,
     filter (λ inc, is_same_stack cur inc ≠ true) incidents).
Proof.
  unfold split_stacks.
  assert (∀ l same cross,
    foldl (split_step cur) (same, cross) l
    = (same ++ filter (λ inc, is_same_stack cur inc = true) l,
       cross ++ filter (λ inc, is_same_stack cur inc ≠ true) l)) as Hgen.
  { induction l as [|x l IH]; intros same cross; simpl.
    - by rewrite !app_nil_r.
    - unfold split_step at 2; simpl.
      destruct (is_same_stack cur x) eqn:E; rewrite IH.
      + rewrite (filter_cons_True (λ inc, is_same_stack cur inc = true))
          by done.
        rewrite (filter_cons_False (λ inc, is_same_stack cur inc ≠ true))
          by (by intros []).
        by rewrite <-app_assoc.
      + rewrite (filter_cons_False (λ inc, is_same_stack cur inc = true))
          by congruence.
        rewrite (filter_cons_True (λ inc, is_same_stack cur inc ≠ true))
          by congruence.
        by rewrite <-app_assoc. }
  apply Hgen.
Qed.

Lemma is_same_stack_true cur inc :
  is_same_stack cur inc = true ↔
  ∃ S, cur = Some S ∧ S ≠ "" ∧ inc_tech_stack inc = Some S.
Proof.
  unfold is_same_stack, truthy. destruct cur as [S|]; simpl.
  - rewrite andb_true_iff, negb_true_iff, String.eqb_neq,
      bool_decide_eq_true.
    split.
    + intros [HS Hinc]. by exists S.
    + by intros (S' & [= <-] & HS & Hinc).
  - split; [done|]. by intros (S & HS & _).
Qed.

(** Step 7: the sort permutes its argument and leaves it descending. *)
Lemma insert_desc_perm x l : insert_desc x l ≡ₚ x :: l.
Proof.
  induction l as [|y l IH]; simpl; [done|].
  destruct (Qle_bool _ _); [done|].
  rewrite IH. apply Permutation_swap.
Qed.

Lemma sort_desc_perm l : sort_desc l ≡ₚ l.
Proof.
  induction l as [|x l IH]; simpl; [done|].
  by rewrite insert_desc_perm, IH.
Qed.

Lemma insert_desc_sorted x l :
  StronglySorted score_ge l → StronglySorted score_ge (insert_desc x l).
Proof.
  induction 1 as [|y l Hl IH Hy]; simpl.
  - repeat constructor.
  - destruct (Qle_bool _ _) eqn:E.
    + apply Qle_bool_iff in E.
      constructor; [by constructor|].
      constructor; [done|].
      eapply Forall_impl; [exact Hy|].
      unfold score_ge. intros z Hz. by eapply Qle_trans.
    + constructor; [done|].
      rewrite insert_desc_perm. constructor; [|done].
      unfold score_ge. apply Qlt_le_weak, Qnot_le_lt.
      intros Hle. apply Qle_bool_iff in Hle. congruence.
Qed.

Lemma sort_desc_sorted l : StronglySorted score_ge (sort_desc l).
Proof.
  induction l as [|x l IH]; simpl; [constructor|].
  by apply insert_desc_sorted.
Qed.

(** The slices are prefixes. *)
Lemma slice_to_take {A} (l : list A) n : ∃ k, slice_to l n = take k l.
Proof. unfold slice_to. destruct (0 <=? n); eauto. Qed.

Lemma slice_to_sublist {A} (l : list A) n : slice_to l n `sublist_of` l.
Proof. destruct (slice_to_take l n) as [k ->]. apply sublist_take. Qed.

Lemma slice_to_elem_of {A} (l : list A) n x : x ∈ slice_to l n → x ∈ l.
Proof. apply sublist_subseteq, slice_to_sublist. Qed.

Lemma StronglySorted_descending l : StronglySorted score_ge l → descending l.
Proof.
  induction 1 as [|x l Hl IH Hx]; intros i a b Ha Hb; [done|].
  destruct i as [|i]; simpl in *.
  - injection Ha as <-. rewrite Forall_forall in Hx.
    apply Hx. by eapply list_elem_of_lookup_2.
  - by eapply IH.
Qed.

Lemma descending_slice_sort l n : descending (slice_to (sort_desc l) n).
Proof.
  apply StronglySorted_descending.
  destruct (slice_to_take (sort_desc l) n) as [k ->].
  pose proof (sort_desc_sorted l) as Hs.
  rewrite <-(take_drop k (sort_desc l)) in Hs.
  by apply StronglySorted_app_1_l in Hs.
Qed.

End Steps.

(** * The result of [search_similar] *)

Section Result.
Import Search.

Lemma assemble_same_stack cur limit hits rows :
  same_stack (assemble cur limit hits rows)
  = slice_to (sort_desc (filter (λ inc, is_same_stack cur inc = true)
                           (build_incidents hits rows))) (limit / 2).
Proof. unfold assemble. by rewrite split_stacks_filter. Qed.

Lemma assemble_cross_stack cur limit hits rows :
  cross_stack (assemble cur limit hits rows)
  = slice_to (sort_desc (filter (λ inc, is_same_stack cur inc ≠ true)
                           (build_incidents hits rows))) (limit / 2).
Proof. unfold assemble. by rewrite split_stacks_filter. Qed.

Lemma assemble_all_results cur limit hits rows :
  all_results (assemble cur limit hits rows)
  = slice_to (build_incidents hits rows) limit.
Proof. unfold assemble. by rewrite split_stacks_filter. Qed.

Lemma elem_of_same_stack cur limit hits rows inc :
  inc ∈ same_stack (assemble cur limit hits rows) →
  is_same_stack cur inc = true ∧ inc ∈ build_incidents hits rows.
Proof.
  rewrite assemble_same_stack. intros Hin%slice_to_elem_of.
  rewrite sort_desc_perm in Hin. by apply list_elem_of_filter in Hin.
Qed.

Lemma elem_of_cross_stack cur limit hits rows inc :
  inc ∈ cross_stack (assemble cur limit hits rows) →
  is_same_stack cur inc ≠ true ∧ inc ∈ build_incidents hits rows.
Proof.
  rewrite assemble_cross_stack. intros Hin%slice_to_elem_of.
  rewrite sort_desc_perm in Hin. by apply list_elem_of_filter in Hin.
Qed.

Lemma elem_of_all_results cur limit hits rows inc :
  inc ∈ all_results (assemble cur limit hits rows) →
  inc ∈ build_incidents hits rows.
Proof. rewrite assemble_all_results. apply slice_to_elem_of. Qed.

Lemma elem_of_build_incidents hits rows inc :
  inc ∈ build_incidents hits rows ↔
  ∃ row, inc = build_incident (similarity_scores hits) row ∧ row ∈ rows.
Proof. apply list_elem_of_fmap. Qed.

Lemma build_incidents_ids hits rows :
  inc_id <$> build_incidents hits rows = row_id <$> rows.
Proof.
  unfold build_incidents. rewrite <-list_fmap_compose.
  by apply list_fmap_ext.
Qed.

Lemma split_stacks_no_filter cur incidents :
  truthy cur = false → split_stacks cur incidents = ([], incidents).
Proof.
  intros Hcur. rewrite split_stacks_filter.
  assert (∀ inc, is_same_stack cur inc = false) as Hno.
  { intros inc. unfold is_same_stack. by rewrite Hcur. }
  induction incidents as [|inc l IH]; [done|].
  rewrite filter_cons_False by (by rewrite Hno).
  rewrite filter_cons_True by (by rewrite Hno).
  by injection IH as -> ->.
Qed.

Lemma NoDup_submseteq_inv {A} (l k : list A) : l ⊆+ k → NoDup k → NoDup l.
Proof.
  intros (k' & Hk)%submseteq_Permutation Hnd.
  rewrite Hk in Hnd. by apply NoDup_app in Hnd as [? _].
Qed.

(** C1.  With a current stack [S] that is neither [None] nor empty, every
    incident of the returned [same_stack] has [tech_stack] equal to [S] and
    no incident of the returned [cross_stack] has.  Without a current stack
    the returned [same_stack] is empty, the partition step places every
    fetched incident in the cross-stack list, and the returned
    [cross_stack] is the slice [[:limit // 2]] of that list once sorted. *)
Theorem search_similar_partition self query cur limit r tr :
  run (search_similar self query cur limit) = (Ok r, tr) →
  (∀ S, cur = Some S → S ≠ "" →
     (∀ inc, inc ∈ same_stack r → inc_tech_stack inc = Some S)
     ∧ (∀ inc, inc ∈ cross_stack r → inc_tech_stack inc ≠ Some S))
  ∧ (cur = None →
     same_stack r = []
     ∧ ∃ hits rows,
         index_answer self (model_encode self query) (limit * 3) = Ok hits
         ∧ pg_select_in (pg_incidents self) (incident_ids hits) = Ok rows
         ∧ split_stacks None (build_incidents hits rows)
           = ([], build_incidents hits rows)
         ∧ cross_stack r
           = slice_to (sort_desc (build_incidents hits rows)) (limit / 2)).
Proof.
  intros Hrun. rewrite run_search_similar in Hrun; simpl in Hrun.
  destruct (index_answer _ _ _) as [hits|e] eqn:Hq; [|done].
  destruct (pg_select_in _ _) as [rows|e] eqn:Hpg; [|done].
  injection Hrun as <- <-. split.
  - intros S -> HS. split; intros inc Hinc.
    + apply elem_of_same_stack in Hinc as [Hsame _].
      apply is_same_stack_true in Hsame as (S' & [= <-] & _ & Hinc).
      done.
    + apply elem_of_cross_stack in Hinc as [Hcross _].
      intros Hstack. apply Hcross, is_same_stack_true. by exists S.
  - intros ->. unfold assemble.
    rewrite (split_stacks_no_filter None) by done. simpl.
    split; [by destruct (slice_to_take (A:=Incident) [] (limit / 2))
                 as [k ->]; rewrite take_nil|].
    exists hits, rows. by rewrite (split_stacks_no_filter None).
Qed.

(** C5.  The returned [same_stack] and [cross_stack] are each in
    descending order of [similarity_score]: the score of an element is at
    least the score of the next one. *)
Theorem search_similar_sorted self query cur limit r tr :
  run (search_similar self query cur limit) = (Ok r, tr) →
  descending (same_stack r) ∧ descending (cross_stack r).
Proof.
  intros (hits & _ & _ & ->)%search_similar_ok.
  rewrite assemble_same_stack, assemble_cross_stack.
  split; apply descending_slice_sort.
Qed.

(** C7.  The table has [id] as its primary key, so no two rows share an
    id.  Then no id occurs twice in the returned [same_stack], none occurs
    twice in the returned [cross_stack], and none occurs in both, whatever
    ids the index repeats. *)
Theorem search_similar_distinct_ids self query cur limit r tr :
  NoDup (row_id <$> pg_incidents self) →
  run (search_similar self query cur limit) = (Ok r, tr) →
  NoDup (inc_id <$> same_stack r)
  ∧ NoDup (inc_id <$> cross_stack r)
  ∧ ∀ i, i ∈ (inc_id <$> same_stack r) → i ∉ (inc_id <$> cross_stack r).
Proof.
  intros Hkey (hits & _ & _ & ->)%search_similar_ok.
  set (rows := filter _ (pg_incidents self)).
  assert (NoDup (inc_id <$> build_incidents hits rows)) as Hnd.
  { rewrite build_incidents_ids.
    eapply sublist_NoDup; [exact Hkey|].
    apply fmap_sublist, sublist_filter. }
  assert (same_stack (assemble cur limit hits rows)
          ++ cross_stack (assemble cur limit hits rows)
          ⊆+ build_incidents hits rows) as Hsub.
  { rewrite assemble_same_stack, assemble_cross_stack.
    rewrite <-(filter_app_complement
                 (λ inc, is_same_stack cur inc = true)
                 (build_incidents hits rows)) at 3.
    apply submseteq_app.
    - etransitivity; [apply sublist_submseteq, slice_to_sublist|].
      apply Permutation_submseteq, sort_desc_perm.
    - etransitivity; [apply sublist_submseteq, slice_to_sublist|].
      apply Permutation_submseteq, sort_desc_perm. }
  apply (fmap_submseteq inc_id) in Hsub.
  apply NoDup_submseteq_inv in Hsub; [|done].
  rewrite fmap_app in Hsub.
  by apply NoDup_app in Hsub as (Hsame & Hdisj & Hcross).
Qed.

End Result.

(** * Queries the engine does not guard against, and drift *)

Section Edges.
Import Search Fixtures.

Lemma similarity_scores_last_seen hits i :
  similarity_scores hits !! i = last_seen_score hits i.
Proof.
  unfold last_seen_score, hits_of.
  induction hits as [|h hits IH] using rev_ind; [done|].
  rewrite similarity_scores_snoc, filter_app, filter_cons, filter_nil.
  destruct (decide (payload_incident_id h = i)) as [->|Hne].
  - by rewrite lookup_insert_eq, last_snoc.
  - by rewrite lookup_insert_ne, app_nil_r.
Qed.

Lemma filter_ext_in {A} (P1 P2 : A → Prop)
    `{!∀ x, Decision (P1 x), !∀ x, Decision (P2 x)} (l : list A) :
  (∀ x, x ∈ l → P1 x ↔ P2 x) → filter P1 l = filter P2 l.
Proof.
  induction l as [|a l IH]; intros Hiff; [done|].
  assert (filter P1 l = filter P2 l) as Hl.
  { apply IH. intros x Hx. apply Hiff, elem_of_cons. by right. }
  assert (P1 a ↔ P2 a) as Ha12.
  { apply Hiff, elem_of_cons. by left. }
  destruct (decide (P1 a)) as [Ha|Ha].
  - rewrite (filter_cons_True P1) by done.
    rewrite (filter_cons_True P2) by (by apply Ha12).
    by rewrite Hl.
  - rewrite (filter_cons_False P1) by done.
    rewrite (filter_cons_False P2) by (by rewrite <-Ha12).
    done.
Qed.

Lemma incident_ids_present table hits i :
  i ∈ incident_ids (present_hits table hits) ↔
  i ∈ incident_ids hits ∧ i ∈ row_id <$> table.
Proof.
  unfold incident_ids, present_hits. split.
  - intros (h & -> & [Hh Hin]%list_elem_of_filter)%list_elem_of_fmap.
    split; [|done]. apply list_elem_of_fmap. by exists h.
  - intros [(h & -> & Hin)%list_elem_of_fmap Hrow].
    apply list_elem_of_fmap. exists h.
    split; [done|]. by apply list_elem_of_filter.
Qed.

(** C2 (as amended).  An empty query is not rejected.  It is passed to the
    embedding model, then the index is asked for [limit * 3] neighbours of
    its vector and, when the index answers, the store is queried; the
    outcome is the one the index and the store give, as for any other
    query. *)
Theorem search_similar_empty_query self cur limit :
  let v := model_encode self "" in
  let tr := (run (search_similar self "" cur limit)).2 in
  (∃ rest, tr = EmbedCall "" :: index_calls self v (limit * 3) ++ rest)
  ∧ calls_to is_embed tr = 1%nat
  ∧ (run (search_similar self "" cur limit)).1
    = match index_answer self v (limit * 3) with
      | Raise e => Raise e
      | Ok hits =>
          match pg_select_in (pg_incidents self) (incident_ids hits) with
          | Raise e => Raise e
          | Ok rows => Ok (assemble cur limit hits rows)
          end
      end.
Proof.
  assert (∀ v lim, calls_to is_embed (index_calls self v lim) = 0%nat)
    as Hidx.
  { intros v lim. unfold index_calls.
    vector_search_cases self v lim; done. }
  assert (∀ t1 t2, calls_to is_embed (t1 ++ t2)
                   = (calls_to is_embed t1 + calls_to is_embed t2)%nat)
    as Happ.
  { intros t1 t2. unfold calls_to. by rewrite filter_app, length_app. }
  rewrite run_search_similar; simpl.
  destruct (index_answer _ _ _) as [hits|e]; simpl.
  - assert (calls_to is_embed
              (EmbedCall "" :: index_calls self (model_encode self "")
                                 (limit * 3)
                 ++ [StoreCall (incident_ids hits)]) = 1%nat) as Hone.
    { change (EmbedCall "" :: ?t) with ([EmbedCall ""] ++ t).
      by rewrite !Happ, Hidx. }
    destruct (pg_select_in _ _) as [rows|e]; simpl; by eauto.
  - split; [by exists []; rewrite app_nil_r|]. split; [|done].
    change (EmbedCall "" :: ?t) with ([EmbedCall ""] ++ t).
    by rewrite Happ, Hidx.
Qed.

(** C2, counterexample.  On an engine with two incidents the empty query
    returns a result after one call to each collaborator: it is not
    rejected before any call. *)
Lemma empty_query_not_rejected :
  (∃ r, run (search_similar (engine two_hits two_rows) "" (Some "java") 8)
        = (Ok r, [EmbedCall ""; IndexCall QueryPoints [1#2; 1#4] 24;
                  StoreCall ["INC-2"; "INC-1"]]))
  ∧ (¬ ∃ e, run (search_similar (engine two_hits two_rows) ""
                   (Some "java") 8) = (Raise e, []))
  ∧ let tr := (run (search_similar (engine two_hits two_rows) ""
                      (Some "java") 8)).2 in
    calls_to is_embed tr = 1%nat ∧ calls_to is_index tr = 1%nat
    ∧ calls_to is_store tr = 1%nat.
Proof.
  split; [by eexists|]. split; [by intros [e He]|done].
Qed.

(** C3.  When the index returns no candidate the statement sent to the
    store has an empty [IN ()] list, the store raises and so does
    [search_similar]: no empty result is returned. *)
Theorem search_similar_no_candidates self query cur limit :
  index_answer self (model_encode self query) (limit * 3) = Ok [] →
  run (search_similar self query cur limit)
  = (Raise SqlSyntaxError,
     EmbedCall query
       :: index_calls self (model_encode self query) (limit * 3)
       ++ [StoreCall []]).
Proof. intros Hq. rewrite run_search_similar; simpl. by rewrite Hq. Qed.

Lemma search_similar_no_candidates_witness :
  run (search_similar (engine [] two_rows) "db timeout" (Some "java") 8)
  = (Raise SqlSyntaxError,
     [EmbedCall "db timeout"; IndexCall QueryPoints [1#2; 1#4] 24;
      StoreCall []]).
Proof.
  apply (search_similar_no_candidates (engine [] two_rows)).
  reflexivity.
Defined.

(** C4.  [all_results] is the head of the fetched rows in table order, not
    a ranking.  With [INC-1] (score 0.1) stored before [INC-2] (score 0.9):
    for [limit = 2] it is INC-1 then INC-2, in ascending order of score;
    for [limit = 1] it holds INC-1 alone although INC-2 scores higher. *)
Theorem all_results_in_table_order :
  (∃ r tr a b,
     run (search_similar (engine two_hits two_rows) "q" (Some "java") 2)
     = (Ok r, tr)
     ∧ all_results r = [a; b]
     ∧ inc_id a = "INC-1" ∧ similarity_score a = (1#10)%Q
     ∧ inc_id b = "INC-2" ∧ similarity_score b = (9#10)%Q
     ∧ ¬ descending (all_results r))
  ∧ (∃ r tr a,
       run (search_similar (engine two_hits two_rows) "q" (Some "java") 1)
       = (Ok r, tr)
       ∧ all_results r = [a]
       ∧ inc_id a = "INC-1" ∧ similarity_score a = (1#10)%Q
       ∧ last_seen_score two_hits "INC-2" = Some (9#10)%Q
       ∧ "INC-2" ∈ row_id <$> two_rows).
Proof.
  split.
  - eexists _, _, _, _. split; [reflexivity|].
    split; [reflexivity|]. split_and!; [done..|].
    intros Hdesc. specialize (Hdesc 0%nat _ _ eq_refl eq_refl).
    by vm_compute in Hdesc.
  - eexists _, _, _. split; [reflexivity|].
    split; [reflexivity|]. split_and!; [done..|].
    vm_compute. set_solver.
Qed.

(** C6, counterexample.  The index returns INC-1 twice, first with score
    0.9 and then with 0.1; the incident built for INC-1 carries 0.1. *)
Lemma duplicate_id_keeps_last_score :
  ∃ r tr inc,
    run (search_similar (engine dup_hits two_rows) "q" None 8) = (Ok r, tr)
    ∧ inc ∈ cross_stack r ∧ inc ∈ all_results r
    ∧ inc_id inc = "INC-1"
    ∧ first_seen_score dup_hits (inc_id inc) = Some (9#10)%Q
    ∧ Some (similarity_score inc) ≠ first_seen_score dup_hits (inc_id inc).
Proof.
  eexists _, _, _. split; [reflexivity|].
  split; [right; left|]. split; [left|]. by split_and!.
Qed.

(** C6 (as amended).  Every incident of the three returned sequences
    carries the score of the last candidate, in the order of the candidate
    sequence, that has its id. *)
Theorem search_similar_last_seen_score self query cur limit hits r tr inc :
  index_answer self (model_encode self query) (limit * 3) = Ok hits →
  run (search_similar self query cur limit) = (Ok r, tr) →
  inc ∈ same_stack r ++ cross_stack r ++ all_results r →
  last_seen_score hits (inc_id inc) = Some (similarity_score inc).
Proof.
  intros Hq (hits' & Hq' & _ & ->)%search_similar_ok Hinc.
  rewrite Hq in Hq'. injection Hq' as <-.
  assert (inc ∈ build_incidents hits
            (filter (λ row, row_id row ∈ incident_ids hits)
               (pg_incidents self))) as Hb.
  { rewrite !elem_of_app in Hinc. destruct Hinc as [H|[H|H]].
    - by apply elem_of_same_stack in H as [_ ?].
    - by apply elem_of_cross_stack in H as [_ ?].
    - by apply elem_of_all_results in H. }
  apply elem_of_build_incidents in Hb as (row & -> & Hrow).
  apply list_elem_of_filter in Hrow as [Hid _]. simpl.
  apply similarity_scores_is_Some in Hid as [q Hq'].
  rewrite Hq'. simpl. by rewrite <-similarity_scores_last_seen.
Qed.

(** C8.  A candidate id without a row in the table raises no error and
    occurs in none of the three returned sequences; the result is the one
    computed from the candidates that do have a row. *)
Theorem search_similar_drops_missing_ids self query cur limit hits i :
  index_answer self (model_encode self query) (limit * 3) = Ok hits →
  i ∈ incident_ids hits →
  i ∉ (row_id <$> pg_incidents self) →
  ∃ r tr,
    run (search_similar self query cur limit) = (Ok r, tr)
    ∧ (i ∉ inc_id <$> same_stack r)
    ∧ (i ∉ inc_id <$> cross_stack r)
    ∧ (i ∉ inc_id <$> all_results r)
    ∧ r = let present := present_hits (pg_incidents self) hits in
          assemble cur limit present
            (filter (λ row, row_id row ∈ incident_ids present)
               (pg_incidents self)).
Proof.
  intros Hq Hi Hmiss.
  rewrite run_search_similar; simpl. rewrite Hq.
  rewrite pg_select_in_nonempty
    by (intros Hnil; rewrite Hnil in Hi; by apply elem_of_nil in Hi).
  set (rows := filter _ (pg_incidents self)).
  eexists _, _. split; [done|].
  assert (∀ inc, inc ∈ build_incidents hits rows → inc_id inc ≠ i) as Hno.
  { intros inc (row & -> & [_ Hrow]%list_elem_of_filter)%elem_of_build_incidents.
    simpl. intros <-. apply Hmiss, list_elem_of_fmap. by exists row. }
  split_and!.
  - intros (inc & -> & [_ ?]%elem_of_same_stack)%list_elem_of_fmap.
    by eapply Hno.
  - intros (inc & -> & [_ ?]%elem_of_cross_stack)%list_elem_of_fmap.
    by eapply Hno.
  - intros (inc & -> & ?%elem_of_all_results)%list_elem_of_fmap.
    by eapply Hno.
  - simpl.
    assert (filter (λ row, row_id row
              ∈ incident_ids (present_hits (pg_incidents self) hits))
              (pg_incidents self) = rows) as ->.
    { apply filter_ext_in. intros row Hrow.
      rewrite incident_ids_present. split; [by intros [? _]|].
      intros ?. split; [done|]. apply list_elem_of_fmap. by exists row. }
    unfold assemble.
    assert (build_incidents (present_hits (pg_incidents self) hits) rows
            = build_incidents hits rows) as ->; [|done].
    apply list_fmap_ext. intros k row Hk.
    apply list_elem_of_lookup_2, list_elem_of_filter in Hk as [_ Hrow].
    assert (similarity_scores (present_hits (pg_incidents self) hits)
              !! row_id row = similarity_scores hits !! row_id row) as Hsc.
    { apply similarity_scores_present, list_elem_of_fmap. by exists row. }
    unfold build_incident. by rewrite Hsc.
Qed.

End Edges.

(** * Examples of the theorems above on concrete engines *)

Section ResultExamples.
Import Search Fixtures.

(** An older client has no [query_points]: the lookup raises
    [AttributeError] before any call and [search] answers. *)
Example old_client_uses_search :
  run (vector_search (old_engine two_hits two_rows) [1#2] 6)
  = (Ok two_hits, [IndexCall SearchApi [1#2] 6]).
Proof. reflexivity. Qed.

(** Equal scores keep the order in which the rows were fetched. *)
Example sort_desc_is_stable :
  inc_id <$> sort_desc
    (build_incidents
       [hit "A" "java" (1#2); hit "B" "java" (1#2); hit "C" "java" (9#10)]
       [row "A" "java"; row "B" "java"; row "C" "java"])
  = ["C"; "A"; "B"].
Proof. reflexivity. Qed.

(** A negative limit cuts from the end, as a slice does. *)
Example slice_to_negative : slice_to [1; 2; 3; 4] (-1) = [1; 2; 3].
Proof. reflexivity. Qed.

(** A non-empty answer of the index is enough for [search_similar] to
    return. *)
Lemma search_similar_returns self query cur limit hits :
  index_answer self (model_encode self query) (limit * 3) = Ok hits →
  hits ≠ [] →
  ∃ r, run (search_similar self query cur limit)
       = (Ok r, EmbedCall query
                  :: index_calls self (model_encode self query) (limit * 3)
                  ++ [StoreCall (incident_ids hits)]).
Proof.
  intros Hq Hne. rewrite run_search_similar; simpl. rewrite Hq.
  rewrite pg_select_in_nonempty; [by eexists|].
  by destruct hits.
Qed.

Lemma search_similar_partition_witness :
  ∃ r tr,
    run (search_similar (engine two_hits two_rows) "q" (Some "java") 8)
    = (Ok r, tr)
    ∧ (∀ inc, inc ∈ same_stack r → inc_tech_stack inc = Some "java")
    ∧ (∀ inc, inc ∈ cross_stack r → inc_tech_stack inc ≠ Some "java").
Proof.
  eexists _, _. split; [reflexivity|].
  apply (proj1 (search_similar_partition (engine two_hits two_rows)
                  "q" (Some "java") 8 _ _ eq_refl) "java" eq_refl).
  discriminate.
Defined.

Lemma search_similar_sorted_witness :
  ∃ r tr,
    run (search_similar (engine dup_hits two_rows) "q" None 8) = (Ok r, tr)
    ∧ descending (same_stack r) ∧ descending (cross_stack r).
Proof.
  eexists _, _. split; [reflexivity|].
  apply (search_similar_sorted (engine dup_hits two_rows) "q" None 8 _ _
           eq_refl).
Defined.

Lemma two_rows_key : NoDup (row_id <$> two_rows).
Proof.
  simpl. apply NoDup_cons. split.
  - intros Hin%list_elem_of_singleton. discriminate.
  - apply NoDup_singleton.
Qed.

Lemma search_similar_distinct_ids_witness :
  ∃ r tr,
    run (search_similar (engine dup_hits two_rows) "q" (Some "java") 8)
    = (Ok r, tr)
    ∧ NoDup (inc_id <$> same_stack r)
    ∧ NoDup (inc_id <$> cross_stack r)
    ∧ ∀ i, i ∈ (inc_id <$> same_stack r) → i ∉ (inc_id <$> cross_stack r).
Proof.
  eexists _, _. split; [reflexivity|].
  apply (search_similar_distinct_ids (engine dup_hits two_rows) "q"
           (Some "java") 8 _ _ two_rows_key eq_refl).
Defined.

Lemma search_similar_last_seen_score_witness :
  ∃ r tr,
    run (search_similar (engine dup_hits two_rows) "q" None 8) = (Ok r, tr)
    ∧ ∀ inc, inc ∈ same_stack r ++ cross_stack r ++ all_results r →
             last_seen_score dup_hits (inc_id inc)
             = Some (similarity_score inc).
Proof.
  eexists _, _. split; [reflexivity|]. intros inc Hinc.
  apply (search_similar_last_seen_score (engine dup_hits two_rows) "q" None 8
           dup_hits _ _ inc eq_refl eq_refl Hinc).
Defined.

Lemma search_similar_drops_missing_ids_witness :
  ∃ r tr,
    run (search_similar (engine drift_hits two_rows) "q" (Some "java") 8)
    = (Ok r, tr)
    ∧ ("INC-9" ∉ inc_id <$> same_stack r)
    ∧ ("INC-9" ∉ inc_id <$> cross_stack r)
    ∧ ("INC-9" ∉ inc_id <$> all_results r)
    ∧ r = assemble (Some "java") 8 [hit "INC-1" "java" (1#2)]
            [row "INC-1" "java"].
Proof.
  apply (search_similar_drops_missing_ids (engine drift_hits two_rows) "q"
           (Some "java") 8 drift_hits "INC-9" eq_refl).
  - apply list_elem_of_here.
  - simpl. intros Hin.
    apply elem_of_cons in Hin as [Hin|Hin%list_elem_of_singleton];
      discriminate.
Defined.

End ResultExamples.

(** * The orchestrator *)

Section Orchestrator.
Import Search Analyzer Fixtures.

Lemma parse_response_no_marker text :
  PyStr.contains "ROOT CAUSE:" text = false →
  parse_response text
  = ("Unable to determine", "Manual investigation required",
     "Insufficient similar incidents found").
Proof. intros H. unfold parse_response. by rewrite H. Qed.

Lemma append_cons (c : ascii) (s t : string) :
  String c s +:+ t = String c (s +:+ t).
Proof. reflexivity. Qed.

Lemma append_empty_r (s : string) : s +:+ "" = s.
Proof.
  induction s as [|c s IH]; [done|]. by rewrite append_cons, IH.
Qed.

Lemma append_snoc (s t : string) (c : ascii) :
  (s +:+ String c "") +:+ t = s +:+ String c t.
Proof.
  induction s as [|a s IH]; [done|]. by rewrite !append_cons, IH.
Qed.

(** A text that does not contain the separator is not cut. *)
Lemma split_go_no_sep sep s cur :
  PyStr.contains sep s = false → PyStr.split_go sep s 0 cur = [cur +:+ s].
Proof.
  revert cur. induction s as [|c s IH]; intros cur Hno.
  - simpl. by rewrite append_empty_r.
  - change (PyStr.contains sep (String c s))
      with (String.prefix sep (String c s) || PyStr.contains sep s) in Hno.
    apply orb_false_iff in Hno as [Hpre Hrest].
    change (PyStr.split_go sep (String c s) 0 cur)
      with (if String.prefix sep (String c s)
            then cur :: PyStr.split_go sep s (String.length sep - 1) ""
            else PyStr.split_go sep s 0 (cur +:+ String c "")).
    rewrite Hpre, IH by done.
    by rewrite append_snoc.
Qed.

Lemma split_no_sep sep s :
  PyStr.contains sep s = false → PyStr.split sep s = [s].
Proof. intros Hno. unfold PyStr.split. by rewrite split_go_no_sep. Qed.

(** A reply with ["ROOT CAUSE:"] and without ["SOLUTION:"] gives its whole
    text as root cause and leaves the two other defaults. *)
Lemma parse_response_no_solution text :
  PyStr.contains "ROOT CAUSE:" text = true →
  PyStr.contains "SOLUTION:" text = false →
  parse_response text
  = (PyStr.strip (PyStr.replace "ROOT CAUSE:" "" text),
     "Manual investigation required",
     "Insufficient similar incidents found").
Proof.
  intros Hroot Hsol. unfold parse_response.
  by rewrite Hroot, split_no_sep.
Qed.

(** The [except] clause leaves no exception of the [try] body uncaught. *)
Lemma generate_analysis_returns self description tech_stack error_message
    same cross prompt :
  build_prompt description tech_stack error_message same cross = Ok prompt →
  ∃ triple,
    _generate_analysis self description tech_stack error_message same cross
    = Ok triple.
Proof.
  intros Hp. unfold _generate_analysis. rewrite Hp.
  destruct (request_and_parse self prompt); by eexists.
Qed.

(** C9 (as amended).  Once the prompt is built, [_generate_analysis]
    returns a triple whatever the language model does.  If the call raises
    [e], or the reply has no choice or no content, the triple is
    ["Error: " + str(e)], the string ["LLM call failed"] and
    ["Check API key"].  If the reply is a text without the marker
    ["ROOT CAUSE:"], the triple is made of the three defaults of the
    parser. *)
Theorem generate_analysis_failure self description tech_stack error_message
    same cross prompt :
  build_prompt description tech_stack error_message same cross = Ok prompt →
  let outcome :=
    _generate_analysis self description tech_stack error_message same cross in
  (∀ e, groq_create self prompt = Raise e →
        outcome
        = Ok ("Error: " +:+ exn_str e, "LLM call failed", "Check API key"))
  ∧ (groq_create self prompt = Ok {| choices := [] |} →
     outcome
     = Ok ("Error: list index out of range", "LLM call failed",
           "Check API key"))
  ∧ (∀ rest, groq_create self prompt = Ok {| choices := None :: rest |} →
       outcome
       = Ok ("Error: argument of type 'NoneType' is not iterable",
             "LLM call failed", "Check API key"))
  ∧ (∀ text rest,
       groq_create self prompt = Ok {| choices := Some text :: rest |} →
       PyStr.contains "ROOT CAUSE:" text = false →
       outcome
       = Ok ("Unable to determine", "Manual investigation required",
             "Insufficient similar incidents found"))
  ∧ ∃ triple, outcome = Ok triple.
Proof.
  intros Hp; simpl. unfold _generate_analysis, request_and_parse.
  rewrite Hp. split_and!.
  - by intros e ->.
  - by intros ->.
  - by intros rest ->.
  - intros text rest -> Hno; simpl. by rewrite parse_response_no_marker.
  - fold (request_and_parse self prompt).
    destruct (request_and_parse self prompt); by eexists.
Qed.

Lemma generate_analysis_failure_witness :
  _generate_analysis (analyzer two_hits two_rows rate_limited)
    "checkout times out" "java" None [] []
  = Ok ("Error: Error code: 429", "LLM call failed", "Check API key")
  ∧ _generate_analysis (analyzer two_hits two_rows plain_reply)
      "checkout times out" "java" None [] []
    = Ok ("Unable to determine", "Manual investigation required",
          "Insufficient similar incidents found").
Proof.
  split.
  - apply (proj1 (generate_analysis_failure
                    (analyzer two_hits two_rows rate_limited)
                    "checkout times out" "java" None [] [] _ eq_refl)
             (Exn "groq.RateLimitError" "Error code: 429") eq_refl).
  - apply (proj1 (proj2 (proj2 (proj2 (generate_analysis_failure
                    (analyzer two_hits two_rows plain_reply)
                    "checkout times out" "java" None [] [] _ eq_refl))))
             "I cannot help with that." [] eq_refl eq_refl).
Defined.

(** C9, counterexample.  The model answers with a text that has none of
    the section markers.  The triple returned is the parser's defaults, not
    the fallback of the [except] clause. *)
Lemma unparseable_reply_gets_defaults :
  _generate_analysis (analyzer two_hits two_rows plain_reply)
    "checkout times out" "java" None [] []
  = Ok ("Unable to determine", "Manual investigation required",
        "Insufficient similar incidents found")
  ∧ ¬ ∃ cause,
        _generate_analysis (analyzer two_hits two_rows plain_reply)
          "checkout times out" "java" None [] []
        = Ok ("Error: " +:+ cause, "LLM call failed", "Check API key").
Proof.
  split; [reflexivity|]. intros [cause Hc]. vm_compute in Hc. discriminate.
Qed.

Lemma run_analyze_incident self description tech_stack error_message :
  run (analyze_incident self description tech_stack error_message)
  = match run (search_similar (search_engine self)
                 (description +:+ " " +:+ or_empty error_message)
                 (Some tech_stack) 10) with
    | (Raise e, tr) => (Raise e, tr)
    | (Ok r, tr) =>
        match _generate_analysis self description tech_stack error_message
                (same_stack r) (cross_stack r) with
        | Raise e => (Raise e, tr)
        | Ok triple =>
            (Ok {| an_same_stack := slice_to (same_stack r) 5;
                   an_cross_stack := slice_to (cross_stack r) 5;
                   an_root_cause := triple.1.1;
                   an_solution := triple.1.2;
                   an_reasoning := triple.2;
                   most_similar :=
                     pick_most_similar (same_stack r) (cross_stack r) |},
             tr)
        end
    end.
Proof.
  unfold analyze_incident, run, bind, lift, ret.
  destruct (search_similar _ _ _ _ []) as [[r|e] tr]; [|done].
  by destruct (_generate_analysis _ _ _ _ _ _).
Qed.

(** If the search returns and the prompt can be built, the analysis
    returns. *)
Lemma analyze_incident_returns self description tech_stack error_message
    r tr prompt :
  run (search_similar (search_engine self)
         (description +:+ " " +:+ or_empty error_message)
         (Some tech_stack) 10) = (Ok r, tr) →
  build_prompt description tech_stack error_message
    (same_stack r) (cross_stack r) = Ok prompt →
  ∃ a, run (analyze_incident self description tech_stack error_message)
       = (Ok a, tr).
Proof.
  intros Hs Hp. rewrite run_analyze_incident, Hs.
  destruct (generate_analysis_returns self _ _ _ _ _ _ Hp) as [triple ->].
  by eexists.
Qed.

(** C10.  The [most_similar] entry returned by [analyze_incident] is the
    first element of the search's [same_stack] if there is one, else the
    first element of its [cross_stack] if there is one, else [None].  So
    the first same-stack incident is reported even when a cross-stack
    incident has a strictly higher score. *)
Theorem analyze_incident_most_similar self description tech_stack
    error_message a tr :
  run (analyze_incident self description tech_stack error_message)
  = (Ok a, tr) →
  ∃ r,
    run (search_similar (search_engine self)
           (description +:+ " " +:+ or_empty error_message)
           (Some tech_stack) 10) = (Ok r, tr)
    ∧ most_similar a
      = match head (same_stack r) with
        | Some inc => Some inc
        | None => head (cross_stack r)
        end
    ∧ ∀ x y, head (same_stack r) = Some x → y ∈ cross_stack r →
             (similarity_score x < similarity_score y)%Q →
             most_similar a = Some x.
Proof.
  rewrite run_analyze_incident.
  destruct (run (search_similar _ _ _ _)) as [[r|e] tr'] eqn:Hs; [|done].
  destruct (_generate_analysis _ _ _ _ _ _) as [triple|e]; [|done].
  intros [= <- <-]. exists r. simpl. split; [done|].
  split.
  - by destruct (same_stack r), (cross_stack r).
  - intros x y Hx _ _. by destruct (same_stack r); simplify_eq/=.
Qed.

Lemma analyze_incident_most_similar_witness :
  ∃ a tr x y,
    run (analyze_incident (analyzer two_hits two_rows plain_reply)
           "checkout times out" "java" None) = (Ok a, tr)
    ∧ most_similar a = Some x
    ∧ inc_tech_stack x = Some "java"
    ∧ an_cross_stack a = [y]
    ∧ (similarity_score x < similarity_score y)%Q.
Proof.
  destruct (analyze_incident_most_similar
              (analyzer two_hits two_rows plain_reply)
              "checkout times out" "java" None _ _ eq_refl)
    as (r & Hr & Hm & _).
  injection Hr as <-.
  eexists _, _, _, _. split; [reflexivity|].
  split; [exact Hm|]. split; [reflexivity|]. split; [reflexivity|].
  reflexivity.
Defined.

End Orchestrator.

(** * Further properties of [search_similar] *)

Section SearchMore.
Import Search Fixtures.

Lemma slice_to_length_le {A} (l : list A) n :
  0 ≤ n → Z.of_nat (length (slice_to l n)) ≤ n.
Proof.
  intros Hn. unfold slice_to.
  destruct (Z.leb_spec 0 n); [|lia].
  rewrite length_take. lia.
Qed.

Lemma slice_to_all {A} (l : list A) n :
  Z.of_nat (length l) ≤ n → slice_to l n = l.
Proof.
  intros Hn. unfold slice_to.
  destruct (Z.leb_spec 0 n); [|lia].
  apply take_ge. lia.
Qed.

Lemma sort_desc_length l : length (sort_desc l) = length l.
Proof. by rewrite sort_desc_perm. Qed.

(** X1.  For a limit that is not negative, the returned [same_stack] and
    [cross_stack] have at most [limit // 2] incidents each and
    [all_results] has at most [limit]. *)
Theorem search_similar_lengths self query cur limit r tr :
  0 ≤ limit →
  run (search_similar self query cur limit) = (Ok r, tr) →
  Z.of_nat (length (same_stack r)) ≤ limit / 2
  ∧ Z.of_nat (length (cross_stack r)) ≤ limit / 2
  ∧ Z.of_nat (length (all_results r)) ≤ limit.
Proof.
  intros Hlim (hits & _ & _ & ->)%search_similar_ok.
  rewrite assemble_same_stack, assemble_cross_stack, assemble_all_results.
  assert (0 ≤ limit / 2) by (apply Z.div_pos; lia).
  split_and!; by apply slice_to_length_le.
Qed.

Lemma search_similar_lengths_witness :
  ∃ r tr,
    run (search_similar (engine dup_hits two_rows) "q" (Some "java") 3)
    = (Ok r, tr)
    ∧ Z.of_nat (length (same_stack r)) ≤ 1
    ∧ Z.of_nat (length (cross_stack r)) ≤ 1
    ∧ Z.of_nat (length (all_results r)) ≤ 3.
Proof.
  eexists _, _. split; [reflexivity|].
  apply (search_similar_lengths (engine dup_hits two_rows) "q" (Some "java") 3
           _ _ ltac:(lia) eq_refl).
Defined.

(** X2.  When [limit // 2] is at least the number of rows of the table, no
    fetched incident is cut off: [all_results] is the whole list of fetched
    incidents and the two partitions together are a rearrangement of it. *)
Theorem search_similar_keeps_all self query cur limit hits r tr :
  index_answer self (model_encode self query) (limit * 3) = Ok hits →
  run (search_similar self query cur limit) = (Ok r, tr) →
  Z.of_nat (length (pg_incidents self)) ≤ limit / 2 →
  all_results r
  = build_incidents hits
      (filter (λ row, row_id row ∈ incident_ids hits) (pg_incidents self))
  ∧ same_stack r ++ cross_stack r ≡ₚ all_results r.
Proof.
  intros Hq (hits' & Hq' & _ & ->)%search_similar_ok Hlen.
  rewrite Hq in Hq'. injection Hq' as <-.
  set (rows := filter _ (pg_incidents self)).
  assert (length (build_incidents hits rows) ≤ length (pg_incidents self))%nat
    as Hrows.
  { unfold build_incidents. rewrite length_fmap. apply length_filter. }
  rewrite assemble_same_stack, assemble_cross_stack, assemble_all_results.
  assert (∀ P `{!∀ x, Decision (P x)},
            Z.of_nat (length (sort_desc (filter P (build_incidents hits rows))))
            ≤ limit / 2) as Hpart.
  { intros P ?. rewrite sort_desc_length.
    pose proof (length_filter P (build_incidents hits rows)). lia. }
  rewrite (slice_to_all (sort_desc (filter _ _))) by apply Hpart.
  rewrite (slice_to_all (sort_desc (filter _ _))) by apply Hpart.
  assert (limit / 2 ≤ limit) as Hhalf.
  { destruct (Z.lt_ge_cases limit 0) as [Hneg|Hpos].
    - assert (limit / 2 < 0) by (apply Z.div_lt_upper_bound; lia). lia.
    - apply Z.div_le_upper_bound; lia. }
  rewrite (slice_to_all (build_incidents hits rows)) by lia.
  split; [done|].
  rewrite !sort_desc_perm. apply filter_app_complement.
Qed.

Lemma search_similar_keeps_all_witness :
  ∃ r tr,
    run (search_similar (engine two_hits two_rows) "q" (Some "java") 4)
    = (Ok r, tr)
    ∧ all_results r
      = build_incidents two_hits
          (filter (λ row, row_id row ∈ incident_ids two_hits) two_rows)
    ∧ same_stack r ++ cross_stack r ≡ₚ all_results r.
Proof.
  eexists _, _. split; [reflexivity|].
  apply (search_similar_keeps_all (engine two_hits two_rows) "q" (Some "java")
           4 two_hits _ _ eq_refl eq_refl).
  vm_compute. discriminate.
Defined.

(** X3.  Every incident of the three returned sequences is built from a row
    of the table whose id is one of the candidate ids: the engine returns no
    incident the index did not name and none the table does not hold. *)
Theorem search_similar_returns_rows self query cur limit hits r tr inc :
  index_answer self (model_encode self query) (limit * 3) = Ok hits →
  run (search_similar self query cur limit) = (Ok r, tr) →
  inc ∈ same_stack r ++ cross_stack r ++ all_results r →
  inc_id inc ∈ incident_ids hits
  ∧ ∃ row, row ∈ pg_incidents self
           ∧ inc = build_incident (similarity_scores hits) row.
Proof.
  intros Hq (hits' & Hq' & _ & ->)%search_similar_ok Hinc.
  rewrite Hq in Hq'. injection Hq' as <-.
  assert (inc ∈ build_incidents hits
            (filter (λ row, row_id row ∈ incident_ids hits)
               (pg_incidents self))) as Hb.
  { rewrite !elem_of_app in Hinc. destruct Hinc as [H|[H|H]].
    - by apply elem_of_same_stack in H as [_ ?].
    - by apply elem_of_cross_stack in H as [_ ?].
    - by apply elem_of_all_results in H. }
  apply elem_of_build_incidents in Hb as (row & -> & Hrow).
  apply list_elem_of_filter in Hrow as [Hid Hrow].
  split; [done|]. by exists row.
Qed.

Lemma search_similar_returns_rows_witness :
  ∃ r tr,
    run (search_similar (engine drift_hits two_rows) "q" None 8) = (Ok r, tr)
    ∧ ∀ inc, inc ∈ same_stack r ++ cross_stack r ++ all_results r →
             inc_id inc ∈ incident_ids drift_hits
             ∧ ∃ row, row ∈ two_rows
                      ∧ inc = build_incident (similarity_scores drift_hits) row.
Proof.
  eexists _, _. split; [reflexivity|]. intros inc Hinc.
  apply (search_similar_returns_rows (engine drift_hits two_rows) "q" None 8
           drift_hits _ _ inc eq_refl eq_refl Hinc).
Defined.

(** X4.  An empty string as current stack is treated as no stack: the run
    with [''] is the run with [None], result and calls. *)
Theorem search_similar_empty_stack self query limit :
  run (search_similar self query (Some "") limit)
  = run (search_similar self query None limit).
Proof.
  rewrite !run_search_similar; simpl.
  destruct (index_answer _ _ _) as [hits|e]; [|done].
  destruct (pg_select_in _ _) as [rows|e]; [|done].
  unfold assemble. by rewrite !split_stacks_no_filter.
Qed.

End SearchMore.

(** * Ties, calls and the order of the candidates *)

Section SearchOrder.
Import Search Fixtures.

Lemma with_score_cons q inc l :
  with_score q (inc :: l)
  = (if Qeq_bool (similarity_score inc) q then [inc] else [])
    ++ with_score q l.
Proof.
  unfold with_score. rewrite filter_cons.
  destruct (Qeq_bool (similarity_score inc) q) eqn:E.
  - by rewrite decide_True.
  - by rewrite decide_False.
Qed.

(** Inserting [x] does not move it past an incident of equal score. *)
Lemma insert_desc_with_score q x l :
  with_score q (insert_desc x l) = with_score q (x :: l).
Proof.
  induction l as [|y l IH]; simpl; [done|].
  destruct (Qle_bool (similarity_score y) (similarity_score x)) eqn:Hle;
    [done|].
  rewrite with_score_cons, IH, !with_score_cons.
  destruct (Qeq_bool (similarity_score x) q) eqn:Hx,
    (Qeq_bool (similarity_score y) q) eqn:Hy; try done.
  apply Qeq_bool_iff in Hx, Hy.
  assert (Qle_bool (similarity_score y) (similarity_score x) = true)
    as Htrue; [|congruence].
  apply Qle_bool_iff. rewrite Hx, Hy. apply Qle_refl.
Qed.

Lemma sort_desc_with_score q l : with_score q (sort_desc l) = with_score q l.
Proof.
  induction l as [|x l IH]; simpl; [done|].
  by rewrite insert_desc_with_score, !with_score_cons, IH.
Qed.

Lemma with_score_slice_prefix q l n :
  with_score q (slice_to l n) `prefix_of` with_score q l.
Proof.
  destruct (slice_to_take l n) as [k ->].
  rewrite <-(take_drop k l) at 2.
  unfold with_score. rewrite filter_app. by apply prefix_app_r.
Qed.

(** X5.  Ties keep the order of the table.  In each returned partition the
    incidents that share a score [q] come in the order in which their rows
    were fetched: they are the first ones of the fetched incidents of that
    partition that have score [q]. *)
Theorem search_similar_ties_in_table_order self query cur limit hits r tr q :
  index_answer self (model_encode self query) (limit * 3) = Ok hits →
  run (search_similar self query cur limit) = (Ok r, tr) →
  let fetched :=
    build_incidents hits
      (filter (λ row, row_id row ∈ incident_ids hits) (pg_incidents self)) in
  with_score q (same_stack r)
    `prefix_of` with_score q
                  (filter (λ inc, is_same_stack cur inc = true) fetched)
  ∧ with_score q (cross_stack r)
      `prefix_of` with_score q
                    (filter (λ inc, is_same_stack cur inc ≠ true) fetched).
Proof.
  intros Hq (hits' & Hq' & _ & ->)%search_similar_ok; simpl.
  rewrite Hq in Hq'. injection Hq' as <-.
  rewrite assemble_same_stack, assemble_cross_stack.
  split.
  - etransitivity; [apply with_score_slice_prefix|].
    by rewrite sort_desc_with_score.
  - etransitivity; [apply with_score_slice_prefix|].
    by rewrite sort_desc_with_score.
Qed.

Lemma search_similar_ties_in_table_order_witness :
  ∃ r tr,
    run (search_similar (engine Samples.tie_hits Samples.tie_rows) "q"
           (Some "java") 8) = (Ok r, tr)
    ∧ with_score (1#2) (same_stack r)
        `prefix_of`
        with_score (1#2)
          (filter (λ inc, is_same_stack (Some "java") inc = true)
             (build_incidents Samples.tie_hits Samples.tie_rows)).
Proof.
  eexists _, _. split; [reflexivity|].
  apply (search_similar_ties_in_table_order
           (engine Samples.tie_hits Samples.tie_rows) "q" (Some "java") 8
           Samples.tie_hits _ _ (1#2) eq_refl eq_refl).
Defined.

(** Two incidents with the same score come out in table order, although the
    index named them in the other order. *)
Example ties_follow_the_table :
  ∃ r tr,
    run (search_similar (engine Samples.tie_hits Samples.tie_rows) "q"
           (Some "java") 8) = (Ok r, tr)
    ∧ inc_id <$> same_stack r = ["INC-1"; "INC-2"].
Proof. by eexists _, _. Qed.

End SearchOrder.

(** * The calls of a run *)

Section SearchCalls.
Import Search Fixtures.

Lemma calls_to_app which t1 t2 :
  calls_to which (t1 ++ t2) = (calls_to which t1 + calls_to which t2)%nat.
Proof. unfold calls_to. by rewrite filter_app, length_app. Qed.

Lemma calls_to_singleton which c :
  calls_to which [c] = if which c then 1%nat else 0%nat.
Proof.
  unfold calls_to. rewrite filter_cons, filter_nil.
  destruct (which c); [by rewrite decide_True|by rewrite decide_False].
Qed.

Lemma index_calls_counts self v limit :
  calls_to is_embed (index_calls self v limit) = 0%nat
  ∧ calls_to is_store (index_calls self v limit) = 0%nat
  ∧ (calls_to is_index (index_calls self v limit) ≤ 2)%nat.
Proof.
  unfold index_calls.
  vector_search_cases self v limit; cbv; split_and!; lia.
Qed.

(** X6.  A run of [search_similar] starts with one call to the embedding
    model and makes no other; it makes at most two calls to the index and at
    most one to the store, and the store is queried exactly when the index
    has answered. *)
Theorem search_similar_calls self query cur limit :
  let tr := (run (search_similar self query cur limit)).2 in
  head tr = Some (EmbedCall query)
  ∧ calls_to is_embed tr = 1%nat
  ∧ (calls_to is_index tr ≤ 2)%nat
  ∧ (calls_to is_store tr ≤ 1)%nat
  ∧ (calls_to is_store tr = 1%nat ↔
     ∃ hits, index_answer self (model_encode self query) (limit * 3)
             = Ok hits).
Proof.
  destruct (index_calls_counts self (model_encode self query) (limit * 3))
    as (He & Hs & Hi).
  rewrite run_search_similar; simpl.
  destruct (index_answer _ _ _) as [hits|e]; simpl.
  - assert (∀ res : result SearchResult,
              (res, EmbedCall query
                      :: index_calls self (model_encode self query)
                           (limit * 3)
                      ++ [StoreCall (incident_ids hits)]).2
              = [EmbedCall query]
                ++ index_calls self (model_encode self query) (limit * 3)
                ++ [StoreCall (incident_ids hits)]) as Htr by done.
    destruct (pg_select_in _ _) as [rows|e]; rewrite Htr;
      rewrite !calls_to_app, !calls_to_singleton, He, Hs; simpl;
      (split_and!; [done|done|lia|lia|]);
      (split; [by eexists|done]).
  - change (EmbedCall query :: ?t) with ([EmbedCall query] ++ t).
    rewrite !calls_to_app, !calls_to_singleton, He, Hs; simpl.
    split_and!; [done|done|lia|lia|].
    split; [done|]. by intros [hits ?].
Qed.

(** X7.  An error of [query_points] that is not an [AttributeError] is
    raised by [search_similar] as it is: [search] is not tried and the store
    is not queried. *)
Theorem query_points_error_is_raised self query cur limit query_points e :
  client_query_points (qdrant self) = Some query_points →
  query_points (model_encode self query) (limit * 3) = Raise e →
  is_AttributeError e = false →
  run (search_similar self query cur limit)
  = (Raise e,
     [EmbedCall query;
      IndexCall QueryPoints (model_encode self query) (limit * 3)]).
Proof.
  intros Hqp He Hattr. rewrite run_search_similar; simpl.
  unfold index_answer, index_calls, run, vector_search, try_except, method,
    bind, record, lift, ret, throw.
  rewrite Hqp; simpl. by rewrite He, Hattr.
Qed.

Lemma query_points_error_is_raised_witness :
  run (search_similar Samples.down_engine "q" (Some "java") 8)
  = (Raise Samples.unreachable,
     [EmbedCall "q"; IndexCall QueryPoints [1#2; 1#4] 24]).
Proof.
  apply (query_points_error_is_raised Samples.down_engine "q" (Some "java") 8
           (λ _ _, Raise Samples.unreachable) Samples.unreachable
           eq_refl eq_refl eq_refl).
Defined.

(** X8.  On a client without [query_points], or whose [query_points] raises
    an [AttributeError], the answer of the index is the answer of [search]
    for the same vector and limit. *)
Theorem search_is_the_fallback self v limit search :
  client_search (qdrant self) = Some search →
  (client_query_points (qdrant self) = None
   ∨ ∃ query_points e,
       client_query_points (qdrant self) = Some query_points
       ∧ query_points v limit = Raise e
       ∧ is_AttributeError e = true) →
  index_answer self v limit = search v limit
  ∧ last (index_calls self v limit) = Some (IndexCall SearchApi v limit).
Proof.
  intros Hse Hqp.
  unfold index_answer, index_calls, run, vector_search, try_except, method,
    bind, record, lift, ret, throw.
  rewrite Hse.
  destruct Hqp as [->|(qp & e & -> & He & Hattr)]; simpl.
  - by destruct (search v limit).
  - rewrite He, Hattr; simpl. by destruct (search v limit).
Qed.

Lemma search_is_the_fallback_witness :
  index_answer (old_engine two_hits two_rows) [1#2] 6 = Ok two_hits
  ∧ last (index_calls (old_engine two_hits two_rows) [1#2] 6)
    = Some (IndexCall SearchApi [1#2] 6).
Proof.
  apply (search_is_the_fallback (old_engine two_hits two_rows) [1#2] 6
           (λ _ _, Ok two_hits) eq_refl).
  by left.
Defined.

Lemma NoDup_hits_of i hits :
  NoDup (incident_ids hits) → (length (hits_of i hits) ≤ 1)%nat.
Proof.
  unfold incident_ids, hits_of.
  induction hits as [|h hits IH]; intros Hnd; [simpl; lia|].
  rewrite fmap_cons in Hnd. apply NoDup_cons in Hnd as [Hh Hnd].
  rewrite filter_cons. destruct (decide _) as [<-|]; [|by apply IH].
  assert (filter (λ h0, payload_incident_id h0 = payload_incident_id h) hits
          = []) as ->; [|simpl; lia].
  destruct (filter _ hits) as [|h' l] eqn:E; [done|].
  assert (h' ∈ filter (λ h0, payload_incident_id h0 = payload_incident_id h)
                 hits) as Hin by (rewrite E; apply list_elem_of_here).
  apply list_elem_of_filter in Hin as [Heq Hin].
  exfalso. apply Hh. rewrite <-Heq. apply list_elem_of_fmap. by exists h'.
Qed.

(** With distinct ids, the scores do not depend on the order of the
    candidates. *)
Lemma similarity_scores_perm hits hits' :
  NoDup (incident_ids hits) → hits ≡ₚ hits' →
  similarity_scores hits = similarity_scores hits'.
Proof.
  intros Hnd Hperm. apply map_eq. intros i.
  rewrite !similarity_scores_last_seen. unfold last_seen_score.
  assert (NoDup (incident_ids hits')) as Hnd'.
  { unfold incident_ids. by rewrite <-Hperm. }
  pose proof (NoDup_hits_of i hits Hnd) as Hlen.
  pose proof (NoDup_hits_of i hits' Hnd') as Hlen'.
  assert (hits_of i hits ≡ₚ hits_of i hits') as Hp.
  { unfold hits_of. by rewrite Hperm. }
  destruct (hits_of i hits) as [|a [|b l]], (hits_of i hits') as [|a' [|b' l']];
    simpl in *; try lia; try done.
  - by apply Permutation_nil_cons in Hp.
  - symmetry in Hp. by apply Permutation_nil_cons in Hp.
  - by apply Permutation_singleton_inj in Hp as ->.
Qed.

(** X9.  When the candidate ids are distinct, the result does not depend on
    the order in which the index returns the candidates: two engines with
    the same table whose indexes return the same candidates in two orders
    give the same result. *)
Theorem search_similar_candidate_order self self' query cur limit hits hits' :
  pg_incidents self = pg_incidents self' →
  index_answer self (model_encode self query) (limit * 3) = Ok hits →
  index_answer self' (model_encode self' query) (limit * 3) = Ok hits' →
  NoDup (incident_ids hits) →
  hits ≡ₚ hits' →
  (run (search_similar self query cur limit)).1
  = (run (search_similar self' query cur limit)).1.
Proof.
  intros Htable Hq Hq' Hnd Hperm.
  rewrite !run_search_similar. cbv zeta. rewrite Hq, Hq', <-Htable.
  assert (filter (λ r, row_id r ∈ incident_ids hits) (pg_incidents self)
          = filter (λ r, row_id r ∈ incident_ids hits') (pg_incidents self))
    as Hrows.
  { apply filter_ext_in. intros row _. unfold incident_ids. by rewrite Hperm. }
  destruct (decide (hits = [])) as [->|Hne].
  { apply Permutation_nil in Hperm as ->. by rewrite !pg_select_in_nil. }
  assert (hits' ≠ []) as Hne'.
  { intros ->. by apply Permutation_nil_r in Hperm. }
  assert (incident_ids hits ≠ []) by (by destruct hits).
  assert (incident_ids hits' ≠ []) by (by destruct hits').
  rewrite !pg_select_in_nonempty by done. cbn [fst].
  f_equal. unfold assemble, build_incidents.
  by rewrite (similarity_scores_perm _ _ Hnd Hperm), Hrows.
Qed.

Lemma search_similar_candidate_order_witness :
  (run (search_similar (engine two_hits two_rows) "q" (Some "java") 8)).1
  = (run (search_similar (engine Samples.two_hits_reversed two_rows) "q"
            (Some "java") 8)).1.
Proof.
  apply (search_similar_candidate_order (engine two_hits two_rows)
           (engine Samples.two_hits_reversed two_rows) "q" (Some "java") 8
           two_hits Samples.two_hits_reversed eq_refl eq_refl eq_refl).
  - simpl. apply NoDup_cons. split.
    + intros Hin%list_elem_of_singleton. discriminate.
    + apply NoDup_singleton.
  - apply Permutation_swap.
Defined.

End SearchCalls.

(** * Creating and filling the stores *)

Section Stores.
Import Search Setup.

Lemma row_of_id inc : row_id (row_of inc) = j_id inc.
Proof. done. Qed.

Lemma row_of_ids (incidents : list IncidentJson) :
  row_id <$> (row_of <$> incidents) = j_id <$> incidents.
Proof. rewrite <-list_fmap_compose. by apply list_fmap_ext. Qed.

(** The loop of inserts succeeds when no key is repeated. *)
Lemma insert_all_fresh incidents rows :
  NoDup ((row_id <$> rows) ++ (j_id <$> incidents)) →
  insert_all (Some rows) incidents = Ok (Some (rows ++ (row_of <$> incidents))).
Proof.
  revert rows. induction incidents as [|inc rest IH]; intros rows Hnd; simpl.
  - by rewrite app_nil_r.
  - assert (j_id inc ∉ row_id <$> rows) as Hnew.
    { apply NoDup_app in Hnd as (_ & Hdisj & _).
      intros Hin. apply (Hdisj _ Hin). rewrite fmap_cons. apply list_elem_of_here. }
    rewrite decide_False by done.
    rewrite IH.
    + by rewrite <-app_assoc.
    + rewrite fmap_app, <-app_assoc. simpl. by rewrite fmap_cons in Hnd.
Qed.

(** It raises at the first repeated key. *)
Lemma insert_all_repeated incidents rows :
  NoDup (row_id <$> rows) →
  ¬ NoDup ((row_id <$> rows) ++ (j_id <$> incidents)) →
  insert_all (Some rows) incidents = Raise UniqueViolation.
Proof.
  revert rows. induction incidents as [|inc rest IH]; intros rows Hrows Hdup.
  - exfalso. apply Hdup. by rewrite app_nil_r.
  - simpl. destruct (decide (j_id inc ∈ row_id <$> rows)) as [Hin|Hnew];
      [done|].
    apply IH.
    + rewrite fmap_app. apply NoDup_app. split_and!; [done| |apply NoDup_singleton].
      intros i Hi Hi'%list_elem_of_singleton. subst. by apply Hnew.
    + intros Hnd. apply Hdup.
      rewrite fmap_app, <-app_assoc in Hnd. by rewrite fmap_cons.
Qed.

Lemma insert_all_no_table inc rest :
  insert_all None (inc :: rest) = Raise UndefinedTable.
Proof. done. Qed.

(** The points written by [upsert], id by id. *)
Lemma upsert_lookup_from {A} (f : A → PointStruct) (l : list A) (k : nat)
    (m : gmap nat PointStruct) (j : nat) :
  foldl (λ m p, <[p.1 := p.2]> m) m (imap (λ i x, ((k + i)%nat, f x)) l) !! j
  = match (if decide (k ≤ j)%nat then l !! (j - k)%nat else None) with
    | Some x => Some (f x)
    | None => m !! j
    end.
Proof.
  revert k m. induction l as [|x l IH]; intros k m.
  - simpl. by destruct (decide _).
  - rewrite imap_cons. simpl.
    rewrite (imap_ext _ (λ i y, ((S k + i)%nat, f y))); last first.
    { intros i y _. simpl. f_equal. lia. }
    rewrite IH. replace (k + 0)%nat with k by lia.
    destruct (decide (S k ≤ j)%nat) as [Hlt|Hge].
    + rewrite decide_True by lia.
      replace (j - k)%nat with (S (j - S k)) by lia. simpl.
      destruct (l !! (j - S k)%nat); [done|].
      apply lookup_insert_ne. lia.
    + destruct (decide (k ≤ j)%nat) as [Hle|Hlt].
      * assert (j = k) as -> by lia.
        rewrite Nat.sub_diag. simpl. apply lookup_insert_eq.
      * apply lookup_insert_ne. lia.
Qed.

Lemma upsert_lookup encode incidents (m : gmap nat PointStruct) (j : nat) :
  foldl (λ m p, <[p.1 := p.2]> m) m (points_of encode incidents) !! j
  = match incidents !! j with
    | Some inc => Some (point_of encode inc)
    | None => m !! j
    end.
Proof.
  unfold points_of.
  etransitivity;
    [exact (upsert_lookup_from (point_of encode) incidents 0 m j)|].
  destruct (decide (0 ≤ j)%nat); [|lia]. by rewrite Nat.sub_0_r.
Qed.

(** X10.  [setup] succeeds from every state of the stores, also when the
    table or the collection does not exist, and leaves an empty table and an
    empty collection. *)
Theorem setup_empties_both s :
  setup s = (Ok tt, {| pg_table := Some []; qdrant_points := Some ∅ |}).
Proof.
  unfold setup. simpl.
  by destruct (qdrant_points s) as [c|].
Qed.


(** X12.  When an id of the data file is already in the table, or occurs
    twice in the file, [import_data] raises the unique-key violation and
    leaves both stores as they were: no row of the file is committed and no
    point is written. *)
Theorem import_data_repeated_id encode incidents s rows :
  pg_table s = Some rows →
  NoDup (row_id <$> rows) →
  ¬ NoDup ((row_id <$> rows) ++ (j_id <$> incidents)) →
  import_data encode incidents s = (Raise UniqueViolation, s).
Proof.
  intros Ht Hrows Hdup. unfold import_data.
  by rewrite Ht, (insert_all_repeated _ _ Hrows Hdup).
Qed.

(** X13.  When the table exists and the collection does not, [import_data]
    raises after the rows have been committed: the table holds the new rows
    and there is no point for them. *)
Theorem import_data_without_collection encode incidents s rows :
  pg_table s = Some rows →
  qdrant_points s = None →
  NoDup ((row_id <$> rows) ++ (j_id <$> incidents)) →
  import_data encode incidents s
  = (Raise CollectionNotFound,
     {| pg_table := Some (rows ++ (row_of <$> incidents));
        qdrant_points := None |}).
Proof.
  intros Ht Hc Hnd. unfold import_data.
  by rewrite Ht, (insert_all_fresh _ _ Hnd), Hc.
Qed.

(** X14.  [import_data] keeps the primary key: if no two rows of the table
    share an id before the call, none do after it, whether the call returns
    or raises. *)
Theorem import_data_keeps_key encode incidents s rows' :
  (∀ rows, pg_table s = Some rows → NoDup (row_id <$> rows)) →
  pg_table (import_data encode incidents s).2 = Some rows' →
  NoDup (row_id <$> rows').
Proof.
  intros Hkey. unfold import_data.
  destruct (pg_table s) as [rows|] eqn:Ht.
  - specialize (Hkey rows eq_refl).
    destruct (decide (NoDup ((row_id <$> rows) ++ (j_id <$> incidents))))
      as [Hnd|Hdup].
    + rewrite (insert_all_fresh _ _ Hnd).
      destruct (upsert _ _); simpl; intros [= <-];
        by rewrite fmap_app, row_of_ids.
    + rewrite (insert_all_repeated _ _ Hkey Hdup). simpl.
      rewrite Ht. by intros [= <-].
  - destruct incidents as [|inc rest]; simpl.
    + destruct (upsert _ _); simpl; by intros [=].
    + rewrite Ht. by intros [=].
Qed.

(** After [setup], an import of records with distinct ids. *)
Lemma fresh_import encode incidents s0 :
  NoDup (j_id <$> incidents) →
  ∃ c,
    import_data encode incidents (setup s0).2
    = (Ok tt, {| pg_table := Some (row_of <$> incidents);
                 qdrant_points := Some c |})
    ∧ (∀ i, c !! i = point_of encode <$> incidents !! i)
    ∧ integral (row_of <$> incidents) c.
Proof.
  intros Hnd.
  assert ((setup s0).2 = {| pg_table := Some []; qdrant_points := Some ∅ |})
    as -> by (unfold setup; simpl; by destruct (qdrant_points s0)).
  unfold import_data. simpl pg_table. simpl qdrant_points.
  rewrite (insert_all_fresh incidents [] Hnd). simpl.
  eexists. split; [done|].
  assert (∀ i, foldl (λ m p, <[p.1 := p.2]> m) (∅ : gmap nat PointStruct)
                 (points_of encode incidents) !! i
               = point_of encode <$> incidents !! i) as Hc.
  { intros i. rewrite upsert_lookup. by destruct (incidents !! i). }
  split; [done|].
  intros i p Hp. rewrite Hc in Hp.
  destruct (incidents !! i) as [inc|] eqn:Hi; [|done].
  injection Hp as <-. exists (row_of inc). split; [|done].
  apply list_elem_of_fmap. exists inc. split; [done|].
  by eapply list_elem_of_lookup_2.
Qed.

(** X15.  [setup] followed by [import_data] on records with distinct ids
    pairs the two stores: row [i] of the table and point [i] of the
    collection come from record [i], every point names a row of the table
    with the same stack, and every row is named by a point. *)
Theorem setup_then_import_pairs encode incidents s0 :
  NoDup (j_id <$> incidents) →
  ∃ c,
    import_data encode incidents (setup s0).2
    = (Ok tt, {| pg_table := Some (row_of <$> incidents);
                 qdrant_points := Some c |})
    ∧ (∀ i, c !! i = point_of encode <$> incidents !! i)
    ∧ integral (row_of <$> incidents) c
    ∧ ∀ row, row ∈ row_of <$> incidents →
             ∃ i p, c !! i = Some p ∧ point_incident_id p = row_id row.
Proof.
  intros Hnd.
  destruct (fresh_import encode incidents s0 Hnd) as (c & Himp & Hc & Hint).
  exists c. split_and!; [done..|].
  intros row (inc & -> & Hin)%list_elem_of_fmap.
  apply list_elem_of_lookup_1 in Hin as [i Hi].
  exists i, (point_of encode inc). split; [|done].
  by rewrite Hc, Hi.
Qed.

End Stores.

(** * The stores after an import, and a search on them *)

Section StoresExamples.
Import Search Setup Fixtures.

Ltac by_decision := apply (bool_decide_unpack _); vm_compute; exact I.

Lemma dataset_ids_distinct : NoDup (j_id <$> Samples.dataset).
Proof. by_decision. Qed.


Lemma import_data_repeated_id_witness :
  import_data Samples.embed Samples.bad_dataset Samples.empty_stores
  = (Raise UniqueViolation, Samples.empty_stores).
Proof.
  apply (import_data_repeated_id Samples.embed Samples.bad_dataset
           Samples.empty_stores [] eq_refl).
  - apply NoDup_nil_2.
  - by_decision.
Defined.

Lemma import_data_without_collection_witness :
  import_data Samples.embed Samples.dataset Samples.no_collection
  = (Raise CollectionNotFound,
     {| pg_table := Some ([] ++ (row_of <$> Samples.dataset));
        qdrant_points := None |}).
Proof.
  apply (import_data_without_collection Samples.embed Samples.dataset
           Samples.no_collection [] eq_refl eq_refl).
  exact dataset_ids_distinct.
Defined.

Lemma import_data_keeps_key_witness :
  NoDup (row_id <$> (row_of <$> Samples.dataset)).
Proof.
  apply (import_data_keeps_key Samples.embed Samples.dataset
           Samples.empty_stores).
  - intros rows [= <-]. apply NoDup_nil_2.
  - reflexivity.
Defined.

Lemma setup_then_import_pairs_witness :
  ∃ c,
    import_data Samples.embed Samples.dataset (setup Samples.nothing).2
    = (Ok tt, {| pg_table := Some (row_of <$> Samples.dataset);
                 qdrant_points := Some c |})
    ∧ (∀ i, c !! i = point_of Samples.embed <$> Samples.dataset !! i)
    ∧ integral (row_of <$> Samples.dataset) c
    ∧ ∀ row, row ∈ row_of <$> Samples.dataset →
             ∃ i p, c !! i = Some p ∧ point_incident_id p = row_id row.
Proof.
  apply (setup_then_import_pairs Samples.embed Samples.dataset Samples.nothing).
  exact dataset_ids_distinct.
Defined.

Lemma filter_Forall {A} (P : A → Prop) `{!∀ x, Decision (P x)} (l : list A) :
  Forall P l → filter P l = l.
Proof.
  induction 1 as [|x l Hx Hl IH]; [done|].
  by rewrite filter_cons_True, IH.
Qed.

(** X16.  On stores in which every point names a row, a search whose
    candidates are points of the collection drops none of them: every
    candidate id has a row, the search returns, and when [limit] is at least
    the number of rows every candidate is in [all_results], with the stack
    that its point carries. *)
Theorem search_on_paired_stores self query cur limit hits c :
  integral (pg_incidents self) c →
  answers_from c hits →
  index_answer self (model_encode self query) (limit * 3) = Ok hits →
  hits ≠ [] →
  present_hits (pg_incidents self) hits = hits
  ∧ ∃ r tr,
      run (search_similar self query cur limit) = (Ok r, tr)
      ∧ (Z.of_nat (length (pg_incidents self)) ≤ limit →
         ∀ h, h ∈ hits →
              ∃ inc, inc ∈ all_results r
                     ∧ inc_id inc = payload_incident_id h
                     ∧ inc_tech_stack inc = Some (payload_tech_stack h)).
Proof.
  intros Hint Hans Hq Hne.
  assert (∀ h, h ∈ hits →
            ∃ row, row ∈ pg_incidents self
                   ∧ row_id row = payload_incident_id h
                   ∧ row_tech_stack row = Some (payload_tech_stack h))
    as Hrow.
  { intros h (i & p & Hp & -> & ->)%Hans. by apply (Hint i p). }
  split.
  { apply filter_Forall, Forall_forall. intros h (row & Hin & <- & _)%Hrow.
    apply list_elem_of_fmap. by exists row. }
  rewrite run_search_similar. cbv zeta. rewrite Hq.
  rewrite pg_select_in_nonempty by (by destruct hits).
  eexists _, _. split; [done|]. intros Hlim h Hh.
  destruct (Hrow h Hh) as (row & Hin & Hid & Hstack).
  exists (build_incident (similarity_scores hits) row).
  split; [|done].
  rewrite assemble_all_results, slice_to_all.
  - apply elem_of_build_incidents. exists row. split; [done|].
    apply list_elem_of_filter. split; [|done].
    rewrite Hid. apply list_elem_of_fmap. by exists h.
  - unfold build_incidents. rewrite length_fmap.
    pose proof (length_filter (λ row, row_id row ∈ incident_ids hits)
                  (pg_incidents self)). lia.
Qed.

Lemma search_on_paired_stores_witness :
  ∃ c,
    (import_data Samples.embed Samples.dataset (setup Samples.nothing).2).2
    = {| pg_table := Some (row_of <$> Samples.dataset);
         qdrant_points := Some c |}
    ∧ present_hits (row_of <$> Samples.dataset) Samples.dataset_hits
      = Samples.dataset_hits
    ∧ ∃ r tr,
        run (search_similar
               (engine Samples.dataset_hits (row_of <$> Samples.dataset))
               "q" (Some "java") 8) = (Ok r, tr)
        ∧ (Z.of_nat (length (row_of <$> Samples.dataset)) ≤ 8 →
           ∀ h, h ∈ Samples.dataset_hits →
                ∃ inc, inc ∈ all_results r
                       ∧ inc_id inc = payload_incident_id h
                       ∧ inc_tech_stack inc = Some (payload_tech_stack h)).
Proof.
  destruct (fresh_import Samples.embed Samples.dataset Samples.nothing
              dataset_ids_distinct) as (c & Himp & Hc & Hint).
  exists c. split; [by rewrite Himp|].
  apply (search_on_paired_stores
           (engine Samples.dataset_hits (row_of <$> Samples.dataset))
           "q" (Some "java") 8 Samples.dataset_hits c Hint).
  - intros h Hh. apply elem_of_cons in Hh as [->|Hh].
    + exists 1%nat, (point_of Samples.embed
                       (Samples.sample "INC-2" "python" "Worker timeout")).
      by rewrite Hc.
    + apply list_elem_of_singleton in Hh as ->.
      exists 0%nat, (point_of Samples.embed
                       (Samples.sample "INC-1" "java" "Checkout timeout")).
      by rewrite Hc.
  - reflexivity.
  - discriminate.
Defined.

End StoresExamples.

(** * The parser on a reply in the requested format *)

Section Parser.
Import Analyzer.

Lemma append_assoc_s (a b c : string) : (a +:+ b) +:+ c = a +:+ (b +:+ c).
Proof.
  induction a as [|x a IH]; [done|]. by rewrite !append_cons, IH.
Qed.

Lemma prefix_cons a s1 b s2 :
  String.prefix (String a s1) (String b s2)
  = if ascii_dec a b then String.prefix s1 s2 else false.
Proof. reflexivity. Qed.

Lemma prefix_empty s : String.prefix "" s = true.
Proof. by destruct s. Qed.

Lemma prefix_app sep x y :
  String.prefix sep x = true → String.prefix sep (x +:+ y) = true.
Proof.
  revert x. induction sep as [|a sep IH]; intros x Hx.
  - apply prefix_empty.
  - destruct x as [|b x]; [done|].
    rewrite append_cons, prefix_cons. rewrite prefix_cons in Hx.
    destruct (ascii_dec a b); [by apply IH|done].
Qed.

Lemma prefix_self_app sep y : String.prefix sep (sep +:+ y) = true.
Proof.
  induction sep as [|a sep IH]; [apply prefix_empty|].
  rewrite append_cons, prefix_cons. by destruct (ascii_dec a a).
Qed.

Lemma occurrences_cons sep c s :
  occurrences sep (String c s)
  = ((if String.prefix sep (String c s) then 1 else 0)
     + occurrences sep s)%nat.
Proof. reflexivity. Qed.

Lemma occurrences_suffix_le sep a s :
  (occurrences sep s ≤ occurrences sep (a +:+ s))%nat.
Proof.
  induction a as [|c a IH]; [done|].
  rewrite append_cons, occurrences_cons. lia.
Qed.

Lemma occurrences_prefix_le sep x y :
  sep ≠ "" → (occurrences sep x ≤ occurrences sep (x +:+ y))%nat.
Proof.
  intros Hsep. induction x as [|c x IH].
  - destruct sep; [done|]. simpl. lia.
  - rewrite append_cons, !occurrences_cons.
    destruct (String.prefix sep (String c x)) eqn:E.
    + assert (String.prefix sep (String c (x +:+ y)) = true) as ->.
      { rewrite <-append_cons. by apply prefix_app. }
      lia.
    + destruct (String.prefix sep (String c (x +:+ y))); lia.
Qed.

Lemma occurrences_self_app sep y :
  sep ≠ "" → (1 ≤ occurrences sep (sep +:+ y))%nat.
Proof.
  intros Hsep. destruct sep as [|c sep]; [done|].
  rewrite append_cons, occurrences_cons, <-append_cons, prefix_self_app. lia.
Qed.

Lemma occurrences_contains sep s :
  PyStr.contains sep s = false ↔ occurrences sep s = 0%nat.
Proof.
  induction s as [|c s IH].
  - destruct sep; simpl; split; intros H;
      first [discriminate | reflexivity | lia].
  - change (PyStr.contains sep (String c s))
      with (String.prefix sep (String c s) || PyStr.contains sep s).
    rewrite occurrences_cons, orb_false_iff, IH.
    destruct (String.prefix sep (String c s)); simpl; split; intros H.
    + by destruct H.
    + lia.
    + destruct H as [_ H]. lia.
    + split; [done|lia].
Qed.

Lemma split_go_here sep c s cur :
  PyStr.split_go sep (String c s) 0 cur
  = if String.prefix sep (String c s)
    then cur :: PyStr.split_go sep s (String.length sep - 1) ""
    else PyStr.split_go sep s 0 (cur +:+ String c "").
Proof. reflexivity. Qed.

Lemma split_go_skip sep x y cur :
  PyStr.split_go sep (x +:+ y) (String.length x) cur
  = PyStr.split_go sep y 0 cur.
Proof. induction x as [|c x IH]; [done|]. by rewrite append_cons. Qed.

Lemma replace_go_here old new c s :
  PyStr.replace_go old new (String c s) 0
  = if String.prefix old (String c s)
    then new +:+ PyStr.replace_go old new s (String.length old - 1)
    else String c (PyStr.replace_go old new s 0).
Proof. reflexivity. Qed.

Lemma replace_go_skip old new x y :
  PyStr.replace_go old new (x +:+ y) (String.length x)
  = PyStr.replace_go old new y 0.
Proof. induction x as [|c x IH]; [done|]. by rewrite append_cons. Qed.

Lemma replace_go_no_old old new s :
  PyStr.contains old s = false → PyStr.replace_go old new s 0 = s.
Proof.
  induction s as [|c s IH]; intros Hno; [done|].
  change (PyStr.contains old (String c s))
    with (String.prefix old (String c s) || PyStr.contains old s) in Hno.
  apply orb_false_iff in Hno as [Hpre Hrest].
  by rewrite replace_go_here, Hpre, IH.
Qed.

(** A text with one occurrence of the separator is cut in two there. *)
Lemma split_one_occurrence sep a b cur :
  sep ≠ "" →
  occurrences sep (a +:+ sep +:+ b) = 1%nat →
  PyStr.split_go sep (a +:+ sep +:+ b) 0 cur = [cur +:+ a; b].
Proof.
  intros Hsep. revert cur. induction a as [|c a IH]; intros cur Hocc.
  - change ("" +:+ sep +:+ b) with (sep +:+ b) in *.
    rewrite append_empty_r.
    destruct sep as [|c0 sep']; [done|].
    rewrite append_cons in *. rewrite occurrences_cons in Hocc.
    rewrite <-append_cons, prefix_self_app in Hocc.
    rewrite split_go_here, <-append_cons, prefix_self_app.
    replace (String.length (String c0 sep') - 1)%nat
      with (String.length sep') by (simpl; lia).
    rewrite split_go_skip.
    rewrite split_go_no_sep; [done|].
    apply occurrences_contains.
    pose proof (occurrences_suffix_le (String c0 sep') sep' b). lia.
  - rewrite append_cons in *. rewrite occurrences_cons in Hocc.
    pose proof (occurrences_suffix_le sep a (sep +:+ b)).
    pose proof (occurrences_self_app sep b Hsep).
    rewrite split_go_here.
    destruct (String.prefix sep (String c (a +:+ sep +:+ b))); [lia|].
    rewrite IH by lia. by rewrite append_snoc.
Qed.

(** A text with one occurrence of [old] has it replaced there. *)
Lemma replace_one_occurrence old new a b :
  old ≠ "" →
  occurrences old (a +:+ old +:+ b) = 1%nat →
  PyStr.replace old new (a +:+ old +:+ b) = a +:+ new +:+ b.
Proof.
  intros Hold. unfold PyStr.replace. induction a as [|c a IH]; intros Hocc.
  - change ("" +:+ old +:+ b) with (old +:+ b) in *.
    change ("" +:+ new +:+ b) with (new +:+ b).
    destruct old as [|c0 old']; [done|].
    rewrite append_cons in *. rewrite occurrences_cons in Hocc.
    rewrite <-append_cons, prefix_self_app in Hocc.
    rewrite replace_go_here, <-append_cons, prefix_self_app.
    replace (String.length (String c0 old') - 1)%nat
      with (String.length old') by (simpl; lia).
    rewrite replace_go_skip.
    rewrite replace_go_no_old; [done|].
    apply occurrences_contains.
    pose proof (occurrences_suffix_le (String c0 old') old' b). lia.
  - rewrite append_cons in *. rewrite occurrences_cons in Hocc.
    pose proof (occurrences_suffix_le old a (old +:+ b)).
    pose proof (occurrences_self_app old b Hold).
    rewrite replace_go_here.
    destruct (String.prefix old (String c (a +:+ old +:+ b))); [lia|].
    rewrite IH by lia. by rewrite append_cons.
Qed.

(** X17.  A reply in which each of the three markers occurs once, in the
    order ROOT CAUSE, SOLUTION, REASONING, is parsed into its three
    sections with the surrounding white space removed; what precedes the
    first marker stays in front of the root cause. *)
Theorem parse_response_sections pre rc sol rea :
  let text := pre +:+ "ROOT CAUSE:" +:+ rc +:+ "SOLUTION:" +:+ sol
              +:+ "REASONING:" +:+ rea in
  occurrences "ROOT CAUSE:" text = 1%nat →
  occurrences "SOLUTION:" text = 1%nat →
  occurrences "REASONING:" text = 1%nat →
  parse_response text
  = (PyStr.strip (pre +:+ rc), PyStr.strip sol, PyStr.strip rea).
Proof.
  intros text Hroot Hsol Hrea. unfold parse_response.
  assert (text = (pre +:+ "ROOT CAUSE:" +:+ rc) +:+ "SOLUTION:"
                 +:+ (sol +:+ "REASONING:" +:+ rea)) as Hcut.
  { unfold text. by rewrite !append_assoc_s. }
  assert (text = (pre +:+ "ROOT CAUSE:" +:+ rc +:+ "SOLUTION:")
                 +:+ (sol +:+ "REASONING:" +:+ rea)) as Htail.
  { unfold text. by rewrite !append_assoc_s. }
  assert ("ROOT CAUSE:" ≠ "" ∧ "SOLUTION:" ≠ "" ∧ "REASONING:" ≠ "")
    as (Hn1 & Hn2 & Hn3) by done.
  assert (PyStr.contains "ROOT CAUSE:" text = true) as ->.
  { destruct (PyStr.contains "ROOT CAUSE:" text) eqn:E; [done|].
    apply occurrences_contains in E. lia. }
  assert (PyStr.split "SOLUTION:" text
          = [pre +:+ "ROOT CAUSE:" +:+ rc; sol +:+ "REASONING:" +:+ rea])
    as ->.
  { unfold PyStr.split. rewrite Hcut in Hsol |- *.
    by rewrite split_one_occurrence. }
  assert (PyStr.split "REASONING:" (sol +:+ "REASONING:" +:+ rea) = [sol; rea])
    as ->.
  { unfold PyStr.split. rewrite split_one_occurrence; [done..|].
    pose proof (occurrences_self_app "REASONING:" rea Hn3).
    pose proof (occurrences_suffix_le "REASONING:" sol ("REASONING:" +:+ rea)).
    pose proof (occurrences_suffix_le "REASONING:"
                  (pre +:+ "ROOT CAUSE:" +:+ rc +:+ "SOLUTION:")
                  (sol +:+ "REASONING:" +:+ rea)) as Hle.
    rewrite <-Htail in Hle. lia. }
  simpl.
  rewrite replace_one_occurrence; [done..|].
  pose proof (occurrences_self_app "ROOT CAUSE:" rc Hn1).
  pose proof (occurrences_suffix_le "ROOT CAUSE:" pre ("ROOT CAUSE:" +:+ rc)).
  pose proof (occurrences_prefix_le "ROOT CAUSE:"
                (pre +:+ "ROOT CAUSE:" +:+ rc)
                ("SOLUTION:" +:+ sol +:+ "REASONING:" +:+ rea) Hn1) as Hle.
  rewrite <-Hcut in Hle. lia.
Qed.

End Parser.

(** * More on the orchestrator *)

Section OrchestratorMore.
Import Search Analyzer Fixtures.

Lemma parse_response_sections_witness :
  parse_response Samples.formatted_reply
  = ("Here is my analysis.

 The connection pool is exhausted.",
     "1. Restart the service
2. Raise the pool size",
     "Same cause as INC-1.").
Proof.
  exact (parse_response_sections
           "Here is my analysis.
"
           "
 The connection pool is exhausted.

"
           "
1. Restart the service
2. Raise the pool size

"
           "
 Same cause as INC-1.
" eq_refl eq_refl eq_refl).
Defined.

Lemma first_step_raises inc :
  inc_solution inc = None ∨ inc_solution inc = Some [] →
  ∃ e, first_step inc = Raise e
       ∧ (exn_class e = "TypeError" ∨ exn_class e = "IndexError").
Proof.
  unfold first_step. intros [-> | ->]; eexists; (split; [done|]); auto.
Qed.

Lemma first_step_error_class inc e :
  first_step inc = Raise e →
  exn_class e = "TypeError" ∨ exn_class e = "IndexError".
Proof.
  unfold first_step. destruct (inc_solution inc) as [[|step steps]|]; simpl;
    intros [= <-]; auto.
Qed.

(** X18.  The fallback of [_generate_analysis] does not cover the prompt.
    When the first incident of [same_stack] or of [cross_stack] has a NULL
    or empty [solution], the call raises a [TypeError] or an [IndexError],
    whatever the language model would have answered. *)
Theorem generate_analysis_prompt_error self description tech_stack
    error_message same cross inc :
  head same = Some inc ∨ head cross = Some inc →
  inc_solution inc = None ∨ inc_solution inc = Some [] →
  ∃ e,
    _generate_analysis self description tech_stack error_message same cross
    = Raise e
    ∧ (exn_class e = "TypeError" ∨ exn_class e = "IndexError").
Proof.
  intros Hhead Hsol.
  destruct (first_step_raises inc Hsol) as (e & He & Hclass).
  unfold _generate_analysis, build_prompt, same_stack_context,
    cross_stack_context, context_of.
  destruct Hhead as [Hs|Hc].
  - destruct same as [|inc' same]; simplify_eq/=. rewrite He. by exists e.
  - destruct cross as [|inc' cross]; simplify_eq/=.
    destruct same as [|inc' same].
    + rewrite He. by exists e.
    + destruct (first_step inc') as [step|e'] eqn:He'.
      * rewrite He. by exists e.
      * exists e'. split; [done|]. by eapply first_step_error_class.
Qed.

Lemma generate_analysis_prompt_error_witness :
  ∃ e,
    _generate_analysis (analyzer two_hits two_rows plain_reply)
      "checkout times out" "java" None [Samples.no_steps] []
    = Raise e
    ∧ (exn_class e = "TypeError" ∨ exn_class e = "IndexError").
Proof.
  apply (generate_analysis_prompt_error
           (analyzer two_hits two_rows plain_reply)
           "checkout times out" "java" None [Samples.no_steps] []
           Samples.no_steps).
  - by left.
  - by right.
Defined.

(** X19.  [analyze_incident] raises exactly when the search raises or the
    prompt cannot be built; no outcome of the language-model call makes it
    raise. *)
Theorem analyze_incident_raises_iff self description tech_stack error_message :
  let query := description +:+ " " +:+ or_empty error_message in
  (∃ e tr, run (analyze_incident self description tech_stack error_message)
           = (Raise e, tr))
  ↔ (∃ e tr, run (search_similar (search_engine self) query
                    (Some tech_stack) 10) = (Raise e, tr))
    ∨ (∃ r tr e,
         run (search_similar (search_engine self) query (Some tech_stack) 10)
         = (Ok r, tr)
         ∧ build_prompt description tech_stack error_message
             (same_stack r) (cross_stack r) = Raise e).
Proof.
  simpl. rewrite run_analyze_incident.
  destruct (run (search_similar _ _ _ _)) as [[r|e] tr] eqn:Hs.
  - unfold _generate_analysis.
    destruct (build_prompt _ _ _ _ _) as [prompt|e] eqn:Hp.
    + split.
      * destruct (request_and_parse self prompt); by intros (? & ? & [=]).
      * intros [(? & ? & [=])|(r' & tr' & e' & [= <- <-] & He)].
        congruence.
    + split; [|by eauto]. intros _. right. by exists r, tr, e.
  - split; [|by eauto]. intros _. left. by exists e, tr.
Qed.

Lemma slice_sort_strongly_sorted l n :
  StronglySorted score_ge (slice_to (sort_desc l) n).
Proof.
  destruct (slice_to_take (sort_desc l) n) as [k ->].
  pose proof (sort_desc_sorted l) as Hs.
  rewrite <-(take_drop k (sort_desc l)) in Hs.
  by apply StronglySorted_app_1_l in Hs.
Qed.

Lemma head_is_top l x :
  StronglySorted score_ge l → head l = Some x →
  ∀ y, y ∈ l → (similarity_score y <= similarity_score x)%Q.
Proof.
  intros Hs Hx y Hy. destruct l as [|x' l]; simplify_eq/=.
  apply StronglySorted_cons in Hs as [Hall _].
  apply elem_of_cons in Hy as [->|Hy]; [apply Qle_refl|].
  rewrite Forall_forall in Hall. by apply Hall.
Qed.

(** X20.  The partitions returned by [analyze_incident] are the partitions
    of the search, uncut: with the limit of 10 that it passes each has at
    most 5 incidents, so the slices [[:5]] remove nothing. *)
Theorem analyze_incident_partitions self description tech_stack error_message
    a tr :
  run (analyze_incident self description tech_stack error_message)
  = (Ok a, tr) →
  ∃ r,
    run (search_similar (search_engine self)
           (description +:+ " " +:+ or_empty error_message)
           (Some tech_stack) 10) = (Ok r, tr)
    ∧ an_same_stack a = same_stack r
    ∧ an_cross_stack a = cross_stack r
    ∧ (length (an_same_stack a) ≤ 5)%nat
    ∧ (length (an_cross_stack a) ≤ 5)%nat.
Proof.
  rewrite run_analyze_incident.
  destruct (run (search_similar _ _ _ _)) as [[r|e] tr'] eqn:Hs; [|done].
  destruct (_generate_analysis _ _ _ _ _ _) as [triple|e]; [|done].
  intros [= <- <-]. exists r. split; [done|]. simpl.
  apply search_similar_ok in Hs as (hits & _ & _ & ->).
  rewrite assemble_same_stack, assemble_cross_stack.
  change (10 / 2) with 5.
  pose proof (slice_to_length_le
                (sort_desc (filter (λ inc, is_same_stack (Some tech_stack) inc
                                           = true)
                              (build_incidents hits
                                 (filter (λ row, row_id row ∈ incident_ids hits)
                                    (pg_incidents (search_engine self))))))
                5 ltac:(lia)) as Hsame.
  pose proof (slice_to_length_le
                (sort_desc (filter (λ inc, is_same_stack (Some tech_stack) inc
                                           ≠ true)
                              (build_incidents hits
                                 (filter (λ row, row_id row ∈ incident_ids hits)
                                    (pg_incidents (search_engine self))))))
                5 ltac:(lia)) as Hcross.
  rewrite !(slice_to_all (slice_to _ 5) 5) by done.
  split_and!; [done|done|lia|lia].
Qed.

Lemma analyze_incident_partitions_witness :
  ∃ a tr r,
    run (analyze_incident (analyzer two_hits two_rows plain_reply)
           "checkout times out" "java" None) = (Ok a, tr)
    ∧ run (search_similar (engine two_hits two_rows)
             ("checkout times out" +:+ " " +:+ or_empty None)
             (Some "java") 10) = (Ok r, tr)
    ∧ an_same_stack a = same_stack r
    ∧ an_cross_stack a = cross_stack r
    ∧ (length (an_same_stack a) ≤ 5)%nat
    ∧ (length (an_cross_stack a) ≤ 5)%nat.
Proof.
  destruct (analyze_incident_partitions
              (analyzer two_hits two_rows plain_reply)
              "checkout times out" "java" None _ _ eq_refl)
    as (r & Hr & Hrest).
  eexists _, _, r. split; [reflexivity|]. by split.
Defined.

(** X21.  The incident reported as [most_similar] has the highest score of
    its partition: of the returned same-stack incidents when there is one,
    of the returned cross-stack incidents otherwise. *)
Theorem most_similar_tops_its_partition self description tech_stack
    error_message a tr m :
  run (analyze_incident self description tech_stack error_message)
  = (Ok a, tr) →
  most_similar a = Some m →
  (an_same_stack a ≠ [] →
   m ∈ an_same_stack a
   ∧ ∀ y, y ∈ an_same_stack a →
          (similarity_score y <= similarity_score m)%Q)
  ∧ (an_same_stack a = [] →
     m ∈ an_cross_stack a
     ∧ ∀ y, y ∈ an_cross_stack a →
            (similarity_score y <= similarity_score m)%Q).
Proof.
  rewrite run_analyze_incident.
  destruct (run (search_similar _ _ _ _)) as [[r|e] tr'] eqn:Hs; [|done].
  destruct (_generate_analysis _ _ _ _ _ _) as [triple|e]; [|done].
  intros [= <- <-]. simpl.
  apply search_similar_ok in Hs as (hits & _ & _ & ->).
  rewrite assemble_same_stack, assemble_cross_stack.
  change (10 / 2) with 5.
  set (same := slice_to (sort_desc _) 5).
  set (cross := slice_to (sort_desc (filter (λ inc, _ ≠ true) _)) 5).
  assert (StronglySorted score_ge same) as Hsame
    by apply slice_sort_strongly_sorted.
  assert (StronglySorted score_ge cross) as Hcross
    by apply slice_sort_strongly_sorted.
  assert (slice_to same 5 = same) as ->.
  { apply slice_to_all. by apply slice_to_length_le. }
  assert (slice_to cross 5 = cross) as ->.
  { apply slice_to_all. by apply slice_to_length_le. }
  intros Hm. split.
  - intros Hne. destruct same as [|x same'] eqn:E; [done|].
    simpl in Hm. injection Hm as <-.
    split; [apply list_elem_of_here|]. by apply head_is_top.
  - intros ->. simpl in Hm.
    destruct cross as [|x cross'] eqn:E; [done|].
    injection Hm as <-.
    split; [apply list_elem_of_here|]. by apply head_is_top.
Qed.

Lemma most_similar_tops_its_partition_witness :
  ∃ a tr m,
    run (analyze_incident (analyzer dup_hits two_rows plain_reply)
           "checkout times out" "go" None) = (Ok a, tr)
    ∧ most_similar a = Some m
    ∧ (an_same_stack a = [] →
       m ∈ an_cross_stack a
       ∧ ∀ y, y ∈ an_cross_stack a →
              (similarity_score y <= similarity_score m)%Q).
Proof.
  eexists _, _, _. split; [reflexivity|]. split; [reflexivity|].
  apply (most_similar_tops_its_partition
           (analyzer dup_hits two_rows plain_reply)
           "checkout times out" "go" None _ _ _ eq_refl eq_refl).
Defined.

(** X22.  [_format_incidents] returns a text exactly when every incident
    has a root cause and a solution list with a first step; otherwise it
    raises. *)
Theorem format_incidents_returns_iff incidents :
  (∃ text, _format_incidents incidents = Ok text)
  ↔ Forall (λ inc, is_Some (inc_root_cause inc)
                   ∧ ∃ step steps, inc_solution inc = Some (step :: steps))
      incidents.
Proof.
  unfold _format_incidents.
  assert ((∃ items, format_each incidents = Ok items)
          ↔ Forall (λ inc, is_Some (inc_root_cause inc)
                           ∧ ∃ step steps,
                               inc_solution inc = Some (step :: steps))
              incidents) as <-.
  { induction incidents as [|inc rest IH]; simpl.
    - split; [constructor|by eexists].
    - rewrite Forall_cons, <-IH. unfold format_incident, first_step.
      destruct (inc_root_cause inc) as [rc|];
        [|split; [by intros [? [=]]|by intros [[[? [=]] _] _]]].
      destruct (inc_solution inc) as [[|step steps]|]; simpl.
      + split; [by intros [? [=]]|by intros [[_ (? & ? & [=])] _]].
      + destruct (format_each rest) as [items|e].
        * split; [|by eexists]. intros _.
          split; [|by eexists]. split; [by eexists|by eexists _, _].
        * split; [by intros [? [=]]|by intros [_ [? [=]]]].
      + split; [by intros [? [=]]|by intros [[_ (? & ? & [=])] _]]. }
  destruct (format_each incidents) as [items|e].
  - split; by eexists.
  - split; by intros [? [=]].
Qed.

End OrchestratorMore.

(** * White space and lengths of the displayed texts *)

Section Texts.
Import Analyzer.

Lemma lstrip_starts_clean s :
  match PyStr.lstrip s with
  | EmptyString => True
  | String c _ => PyStr.is_space c = false
  end.
Proof.
  induction s as [|c s IH]; [done|]. simpl.
  by destruct (PyStr.is_space c) eqn:E.
Qed.

Lemma rstrip_cons c s :
  PyStr.rstrip (String c s)
  = match PyStr.rstrip s with
    | EmptyString => if PyStr.is_space c then "" else String c ""
    | r => String c r
    end.
Proof. reflexivity. Qed.

Lemma rstrip_idem s : PyStr.rstrip (PyStr.rstrip s) = PyStr.rstrip s.
Proof.
  induction s as [|c s IH]; [done|].
  rewrite rstrip_cons.
  destruct (PyStr.rstrip s) as [|d r] eqn:E.
  - destruct (PyStr.is_space c) eqn:Hc; [done|].
    rewrite rstrip_cons. simpl. by rewrite Hc.
  - by rewrite rstrip_cons, IH.
Qed.

Lemma lstrip_rstrip_clean s :
  match s with
  | EmptyString => True
  | String c _ => PyStr.is_space c = false
  end →
  PyStr.lstrip (PyStr.rstrip s) = PyStr.rstrip s.
Proof.
  destruct s as [|c s]; [done|]. intros Hc.
  rewrite rstrip_cons.
  destruct (PyStr.rstrip s) as [|d r]; rewrite ?Hc; simpl; by rewrite Hc.
Qed.

Lemma strip_idem s : PyStr.strip (PyStr.strip s) = PyStr.strip s.
Proof.
  unfold PyStr.strip.
  rewrite (lstrip_rstrip_clean (PyStr.lstrip s)) by apply lstrip_starts_clean.
  apply rstrip_idem.
Qed.

(** X23.  The three texts returned by [parse_response] never start or end
    with white space: stripping any of them again changes nothing. *)
Theorem parse_response_stripped text :
  PyStr.strip (parse_response text).1.1 = (parse_response text).1.1
  ∧ PyStr.strip (parse_response text).1.2 = (parse_response text).1.2
  ∧ PyStr.strip (parse_response text).2 = (parse_response text).2.
Proof.
  unfold parse_response.
  destruct (PyStr.contains "ROOT CAUSE:" text); [|done].
  destruct (PyStr.split "SOLUTION:" text) as [|part0 [|part1 parts]]; simpl;
    try (split_and!; [apply strip_idem|done|done]).
  destruct (PyStr.split "REASONING:" part1) as [|sp0 [|sp1 sps]]; simpl;
    split_and!; solve [apply strip_idem | done].
Qed.

Lemma length_append (a b : string) :
  String.length (a +:+ b) = (String.length a + String.length b)%nat.
Proof.
  induction a as [|c a IH]; [done|]. rewrite append_cons. simpl. by rewrite IH.
Qed.

Lemma length_slice_to s n :
  String.length (PyStr.slice_to s n) = (n `min` String.length s)%nat.
Proof.
  revert s. induction n as [|n IH]; intros [|c s]; simpl; try done.
  by rewrite IH.
Qed.

Lemma slice_to_short s n :
  (String.length s ≤ n)%nat → PyStr.slice_to s n = s.
Proof.
  revert s. induction n as [|n IH]; intros [|c s]; simpl; try done; [lia|].
  intros Hlen. rewrite IH; [done|lia].
Qed.

Lemma shorten_length n s : (String.length (Ui.shorten n s) ≤ n + 3)%nat.
Proof.
  unfold Ui.shorten. destruct (Nat.ltb_spec n (String.length s)).
  - rewrite length_append, length_slice_to. simpl. lia.
  - lia.
Qed.

Lemma shorten_short n s :
  (String.length s ≤ n)%nat → Ui.shorten n s = s.
Proof.
  intros Hlen. unfold Ui.shorten.
  destruct (Nat.ltb_spec n (String.length s)); [lia|done].
Qed.

(** X24.  The shortened title shown for an incident has at most 43
    characters and the shortened root cause at most 123; a title of at most
    40 characters, and a root cause of at most 120, is shown as it is. *)
Theorem short_texts_fit inc :
  (∀ t, Ui.title_short inc = Ok t → (String.length t ≤ 43)%nat)
  ∧ (∀ t, Ui.root_short inc = Ok t → (String.length t ≤ 123)%nat)
  ∧ (∀ title, inc_title inc = Some title →
              (String.length title ≤ 40)%nat →
              Ui.title_short inc = Ok title)
  ∧ (∀ root_cause, inc_root_cause inc = Some root_cause →
                   (String.length root_cause ≤ 120)%nat →
                   Ui.root_short inc = Ok root_cause).
Proof.
  unfold Ui.title_short, Ui.root_short, Ui.shorten_field.
  split_and!.
  - destruct (inc_title inc); intros t [= <-]. apply (shorten_length 40).
  - destruct (inc_root_cause inc); intros t [= <-]. apply (shorten_length 120).
  - intros title -> Hlen. by rewrite shorten_short.
  - intros rc -> Hlen. by rewrite shorten_short.
Qed.

End Texts.

(** * The query sent by the orchestrator *)

Section OrchestratorQuery.
Import Search Analyzer.

Lemma query_not_empty (description : string) (error_message : option string) :
  description +:+ " " +:+ or_empty error_message ≠ "".
Proof. by destruct description. Qed.

Lemma search_similar_embeds_once self query cur limit :
  head (run (search_similar self query cur limit)).2 = Some (EmbedCall query)
  ∧ calls_to is_embed (run (search_similar self query cur limit)).2 = 1%nat.
Proof.
  destruct (index_calls_counts self (model_encode self query) (limit * 3))
    as (He & _ & _).
  rewrite run_search_similar; simpl.
  destruct (index_answer _ _ _) as [hits|e]; simpl.
  - assert (calls_to is_embed
              ([EmbedCall query]
               ++ index_calls self (model_encode self query) (limit * 3)
               ++ [StoreCall (incident_ids hits)]) = 1%nat) as Hone.
    { by rewrite !calls_to_app, !calls_to_singleton, He. }
    by destruct (pg_select_in _ _).
  - split; [done|].
    change (EmbedCall query :: ?t) with ([EmbedCall query] ++ t).
    by rewrite calls_to_app, calls_to_singleton, He.
Qed.

(** X25.  Every run of [analyze_incident] begins by embedding the text
    [description + " " + (error_message or "")], which is never empty, also
    for an empty description, and embeds nothing else. *)
Theorem analyze_incident_query self description tech_stack error_message :
  let query := description +:+ " " +:+ or_empty error_message in
  let tr :=
    (run (analyze_incident self description tech_stack error_message)).2 in
  head tr = Some (EmbedCall query)
  ∧ query ≠ ""
  ∧ calls_to is_embed tr = 1%nat.
Proof.
  cbv zeta. rewrite run_analyze_incident.
  destruct (search_similar_embeds_once (search_engine self)
              (description +:+ " " +:+ or_empty error_message)
              (Some tech_stack) 10) as [Hhead Hone].
  destruct (run (search_similar _ _ _ _)) as [[r|e] tr]; simpl in Hhead, Hone.
  - destruct (_generate_analysis _ _ _ _ _ _);
      (split_and!; [done|apply query_not_empty|done]).
  - split_and!; [done|apply query_not_empty|done].
Qed.

End OrchestratorQuery.
